(** * wqb.auto_auth_session: the retrying, re-authenticating session

    A shallow embedding of [src/wqb/auto_auth_session.py] and the properties
    of its two retry loops, [AutoAuthSession.auth_request] and
    [AutoAuthSession.request].

    The methods are written in a state-and-exception monad.  The state holds
    the instance attributes of the session, the state of the transport (the
    superclass [requests.Session]), and the trace of the calls made so far:
    transport calls, sleeps, log records, and nested [auth_request] calls. *)

From Stdlib Require Import ZArith String Ascii List Floats.SpecFloat.
From stdpp Require Import base option list list_numbers gmap strings pretty.

Local Open Scope Z_scope.

(** ** Python values *)

(** Python's [float]: an IEEE 754 binary64 datum. *)
Abbreviation float := spec_float.

Definition float_zero : float := S754_zero false.

(** [max(a, b)] on floats: the first argument unless the second is greater. *)
Definition float_max (a b : float) : float := if SFltb a b then b else a.

(** [-1.0] *)
Definition float_minus_one : float := S754_finite true 4503599627370496 (-52).

(** The objects passed through to the transport as positional and keyword
    arguments. *)
Inductive value :=
| VNone
| VBool (b : bool)
| VInt (n : Z)
| VFloat (f : float)
| VStr (s : string).

(** [{**a, **b}]: the entries of [a], then those of [b], a key of [b]
    replacing the same key of [a]. *)
Definition dict_merge (a b : gmap string value) : gmap string value := b ∪ a.

(** [range(start, stop)] *)
Definition range (start stop : Z) : list Z := seqZ start (stop - start).

Definition nl : string := String (ascii_of_nat 10) EmptyString.

(** ['\n'.join(lines)] *)
Definition join_lines (lines : list string) : string := String.concat nl lines.

Definition lower_ascii (c : ascii) : ascii :=
  let n := nat_of_ascii c in
  if (65 <=? n)%nat && (n <=? 90)%nat then ascii_of_nat (n + 32) else c.

Fixpoint lower (s : string) : string :=
  match s with
  | EmptyString => EmptyString
  | String c s' => String (lower_ascii c) (lower s')
  end.

Definition str_int (n : Z) : string := pretty n.

Definition str_opt {A} (str : A → string) (o : option A) : string :=
  match o with
  | Some a => str a
  | None => "None"
  end.

(** ** requests.Response *)

Module Response.

(** [headers] is a [CaseInsensitiveDict]: it is keyed by the lower-cased
    header name.  [elapsed] is a [timedelta], in microseconds. *)
Record t := mk {
  status_code : option Z;
  headers : gmap string string;
  reason : option string;
  url : option string;
  elapsed : Z;
  text : string;
}.

(** [Response()] *)
Definition new : t :=
  {| status_code := None; headers := ∅; reason := None; url := None;
     elapsed := 0; text := "" |}.

(** [resp.headers.get(key)] *)
Definition headers_get (resp : t) (key : string) : option string :=
  headers resp !! lower key.

(** [str(resp)], the [__repr__] of [requests.Response]. *)
Definition str (resp : t) : string :=
  "<Response [" +:+ str_opt str_int (status_code resp) +:+ "]>".

End Response.

(** ** The instance attributes of AutoAuthSession *)

Definition Logger := string.

(** [logging.root] *)
Definition logging_root : Logger := "root".

Module AutoAuthSession.

Record t := mk {
  method : string;
  url : string;
  kwargs : gmap string value;
  auth_expected : Response.t → bool;
  auth_max_tries : Z;
  auth_delay_unexpected : float;
  expected : Response.t → bool;
  max_tries : Z;
  delay_unexpected : float;
  logger : Logger;
}.

(** [AutoAuthSession.__init__] (lines 14-38). *)
Definition init (method url : string)
    (auth_expected : Response.t → bool) (auth_max_tries : Z)
    (auth_delay_unexpected : float)
    (expected : Response.t → bool) (max_tries : Z)
    (delay_unexpected : float)
    (logger : Logger) (kwargs : gmap string value) : t :=
  {| method := method;
     url := url;
     kwargs := kwargs;
     auth_expected := auth_expected;
     auth_max_tries := auth_max_tries;
     auth_delay_unexpected := auth_delay_unexpected;
     expected := expected;
     max_tries := Z.max 1 max_tries;
     delay_unexpected := float_max float_zero delay_unexpected;
     logger := logger |}.

(** The defaults of the keyword parameters of [__init__]. *)
Definition default_expected : Response.t → bool := λ _, true.
Definition default_max_tries : Z := 3.
(** [2.0], that is 2^52 * 2^-51. *)
Definition default_delay_unexpected : float :=
  S754_finite false 4503599627370496 (-51).

(** [AutoAuthSession.__repr__] (lines 40-51). *)
Definition repr (self : t) : string := "<AutoAuthSession []>".

End AutoAuthSession.

(** ** Traces *)

(** What a call does, in order: [ESend] is a call of the transport,
    [super().request(method, url, *args, **kwargs)], with the response it
    returned; [ESleep] is a completed [time.sleep]; [EWarning] and [EInfo] are
    log records; [EAuthRequest] is a nested call [self.auth_request()] with
    the trace of that call. *)
Unset Elimination Schemes.
Inductive event :=
| ESend (method url : string) (args : list value) (kwargs : gmap string value)
    (resp : Response.t)
| ESleep (secs : float)
| EWarning (lg : Logger) (msg : string)
| EInfo (lg : Logger) (msg : string)
| EAuthRequest (sub : list event).
Set Elimination Schemes.

Inductive exn := ValueError | OverflowError.

Inductive outcome (A : Type) :=
| Ret (a : A)
| Raise (e : exn).
Arguments Ret {A} a.
Arguments Raise {A} e.

(** ** The monad of the methods *)

Declare Scope py_scope.
Delimit Scope py_scope with py.
Reserved Notation "'let*' x := m 'in' k"
  (at level 10, x pattern, m at level 100, k at level 200).
Reserved Notation "m ';;;' k" (at level 100, k at level 200, right associativity).

Section Methods.

(** The transport is the superclass, [requests.Session]: [World] is its
    state (cookies, connections, the server behind it) and [send] is
    [Session.request], which returns a response for every call. *)
Context {World : Type}.
Context (send : World → string → string → list value → gmap string value
                → Response.t * World).

(** The name of the rate-limit header, a constant of the package. *)
Context (RETRY_AFTER : string).

(** The builtin [float(s)] on a string: [None] stands for [ValueError]. *)
Context (float_of_str : string → option float).

(** [str()] of a tuple, of a dict, of a [timedelta] and of the headers. *)
Context (str_args : list value → string).
Context (str_kwargs : gmap string value → string).
Context (str_timedelta : Z → string).
Context (str_headers : gmap string string → string).

Record state := mkState {
  self : AutoAuthSession.t;
  world : World;
  trace : list event;
}.

(** The state after more events and with another state of the transport. *)
Definition extend (st : state) (w : World) (T : list event) : state :=
  mkState (self st) w (trace st ++ T).

Definition M (A : Type) : Type := state → outcome A * state.

Definition ret {A} (a : A) : M A := λ st, (Ret a, st).

Definition bind {A B} (m : M A) (k : A → M B) : M B := λ st,
  match m st with
  | (Ret a, st') => k a st'
  | (Raise e, st') => (Raise e, st')
  end.

Notation "'let*' x := m 'in' k" := (bind m (λ x, k)) : py_scope.
Notation "m ';;;' k" := (bind m (λ _, k)) : py_scope.
Local Open Scope py_scope.

Definition raise {A} (e : exn) : M A := λ st, (Raise e, st).

Definition get_self : M AutoAuthSession.t := λ st, (Ret (self st), st).

Definition emit (e : event) : M unit := λ st,
  (Ret tt, mkState (self st) (world st) (trace st ++ [e])).

(** [try: body / except ValueError: handler] *)
Definition try_except_ValueError {A} (body handler : M A) : M A := λ st,
  match body st with
  | (Raise ValueError, st') => handler st'
  | r => r
  end.

(** [super().request(method, url, *args, **kwargs)] *)
Definition super_request (method url : string) (args : list value)
    (kwargs : gmap string value) : M Response.t := λ st,
  let '(resp, w) := send (world st) method url args kwargs in
  (Ret resp, mkState (self st) w (trace st ++ [ESend method url args kwargs resp])).

(** [time.sleep(secs)] without the limit that a platform puts on the
    duration: [ValueError] when [secs] is negative or not a number.  The
    [OverflowError] of a duration beyond that limit is in [Limited.sleep],
    and the methods with it are in [Limited]. *)
Definition sleep (secs : float) : M unit :=
  if SFleb float_zero secs then emit (ESleep secs) else raise ValueError.

(** [float(s)] *)
Definition float_ (s : string) : M float :=
  match float_of_str s with
  | Some f => ret f
  | None => raise ValueError
  end.

Definition warning (lg : Logger) (msg : string) : M unit := emit (EWarning lg msg).
Definition info (lg : Logger) (msg : string) : M unit := emit (EInfo lg msg).

(** A call of another method of the session: its events are recorded as
    one [EAuthRequest] event of the caller. *)
Definition nested {A} (m : M A) : M A := λ st,
  let '(r, st') := m (mkState (self st) (world st) []) in
  (r, mkState (self st') (world st') (trace st ++ [EAuthRequest (trace st')])).

(** The handling of status 429, the same statements in [auth_request]
    (lines 86-93) and in [request] (lines 152-159). *)
Definition sleep_retry_after (resp : Response.t) (delay_unexpected : float) : M unit :=
  let retry_after := Response.headers_get resp RETRY_AFTER in
  try_except_ValueError
    (match retry_after with
     | Some s => let* f := float_ s in sleep f
     | None => sleep delay_unexpected
     end)
    (sleep delay_unexpected).

(** The lines of the warning record (lines 98-114 and 164-180). *)
Definition ran_out_lines (self : AutoAuthSession.t) (name : string) (tries : Z)
    (method url : string) (args : list value) (kwargs : gmap string value)
    (resp : Response.t) : list string :=
  [ AutoAuthSession.repr self +:+ "." +:+ name +:+ "(...) [max "
      +:+ str_int tries +:+ " tries ran out]";
    "super().request(method, url, *args, **kwargs):";
    "    method: " +:+ method;
    "    url: " +:+ url;
    "    args: " +:+ str_args args;
    "    kwargs: " +:+ str_kwargs kwargs;
    Response.str resp +:+ ":";
    "    status_code: " +:+ str_opt str_int (Response.status_code resp);
    "    reason: " +:+ str_opt id (Response.reason resp);
    "    url: " +:+ str_opt id (Response.url resp);
    "    elapsed: " +:+ str_timedelta (Response.elapsed resp);
    "    headers: " +:+ str_headers (Response.headers resp);
    "    text: " +:+ Response.text resp ].

Definition ran_out_text (self : AutoAuthSession.t) (name : string) (tries : Z)
    (method url : string) (args : list value) (kwargs : gmap string value)
    (resp : Response.t) : string :=
  join_lines (ran_out_lines self name tries method url args kwargs resp).

(** The text of the info record (lines 117 and 183). *)
Definition tries_text (self : AutoAuthSession.t) (name : string) (tries : Z)
    (log : string) : string :=
  AutoAuthSession.repr self +:+ "." +:+ name +:+ "(...) [" +:+ str_int tries
    +:+ " tries]: " +:+ log.

(** ** auth_request *)

(** The [for] loop of [auth_request] (lines 80-95) over the rest [rng] of
    its range, with the current values of [tries] and [resp].  The boolean
    of the result tells whether the loop was left by [break]. *)
Fixpoint auth_request_loop (method url : string) (args : list value)
    (kwargs : gmap string value) (expected : Response.t → bool)
    (delay_unexpected : float) (rng : list Z) (tries : Z) (resp : Response.t)
    : M (Z * Response.t * bool) :=
  match rng with
  | [] => ret (tries, resp, false)
  | tries :: rng' =>
      let* resp := super_request method url args kwargs in
      if expected resp then ret (tries, resp, true)
      else
        (if bool_decide (Response.status_code resp = Some 429)
         then sleep_retry_after resp delay_unexpected
         else sleep delay_unexpected);;;
        auth_request_loop method url args kwargs expected delay_unexpected
          rng' tries resp
  end.

(** [AutoAuthSession.auth_request] (lines 53-118). *)
Definition auth_request (method url : option string) (args : list value)
    (expected : option (Response.t → bool)) (max_tries : option Z)
    (delay_unexpected : option float) (log : option string)
    (kwargs : gmap string value) : M Response.t :=
  let* self := get_self in
  let method := default (AutoAuthSession.method self) method in
  let url := default (AutoAuthSession.url self) url in
  let kwargs := dict_merge (AutoAuthSession.kwargs self) kwargs in
  let expected := default (AutoAuthSession.auth_expected self) expected in
  let max_tries := default (AutoAuthSession.auth_max_tries self) max_tries in
  let delay_unexpected :=
    default (AutoAuthSession.auth_delay_unexpected self) delay_unexpected in
  let max_tries := Z.max 1 max_tries in
  let delay_unexpected := float_max float_zero delay_unexpected in
  let* (tries, resp, broke) :=
    auth_request_loop method url args kwargs expected delay_unexpected
      (range 1 (1 + max_tries)) 0 Response.new in
  (if broke then (ret tt : M unit)
   else
     let* self := get_self in
     warning (AutoAuthSession.logger self)
       (ran_out_text self "auth_request" tries method url args kwargs resp));;;
  match log with
  | Some log =>
      let* self := get_self in
      info (AutoAuthSession.logger self) (tries_text self "auth_request" tries log)
  | None => (ret tt : M unit)
  end;;;
  ret resp.

(** ** request *)

(** The [for] loop of [request] (lines 141-161). *)
Fixpoint request_loop (method url : string) (args : list value)
    (kwargs : gmap string value) (expected : Response.t → bool)
    (delay_unexpected : float) (rng : list Z) (tries : Z) (resp : Response.t)
    : M (Z * Response.t * bool) :=
  match rng with
  | [] => ret (tries, resp, false)
  | tries :: rng' =>
      let* resp := super_request method url args kwargs in
      if expected resp then ret (tries, resp, true)
      else
        (if bool_decide (Response.status_code resp = Some 401)
         then
           nested (auth_request None None [] None None None None ∅);;;
           sleep delay_unexpected
         else if bool_decide (Response.status_code resp = Some 429)
         then sleep_retry_after resp delay_unexpected
         else sleep delay_unexpected);;;
        request_loop method url args kwargs expected delay_unexpected
          rng' tries resp
  end.

(** [AutoAuthSession.request] (lines 120-184). *)
Definition request (method url : string) (args : list value)
    (expected : option (Response.t → bool)) (max_tries : option Z)
    (delay_unexpected : option float) (log : option string)
    (kwargs : gmap string value) : M Response.t :=
  let* self := get_self in
  let expected := default (AutoAuthSession.expected self) expected in
  let max_tries := default (AutoAuthSession.max_tries self) max_tries in
  let delay_unexpected :=
    default (AutoAuthSession.delay_unexpected self) delay_unexpected in
  let max_tries := Z.max 1 max_tries in
  let delay_unexpected := float_max float_zero delay_unexpected in
  let* (tries, resp, broke) :=
    request_loop method url args kwargs expected delay_unexpected
      (range 1 (1 + max_tries)) 0 Response.new in
  (if broke then (ret tt : M unit)
   else
     let* self := get_self in
     warning (AutoAuthSession.logger self)
       (ran_out_text self "request" tries method url args kwargs resp));;;
  match log with
  | Some log =>
      let* self := get_self in
      info (AutoAuthSession.logger self) (tries_text self "request" tries log)
  | None => (ret tt : M unit)
  end;;;
  ret resp.

End Methods.

Arguments mkState {World} self world trace.
Arguments self {World} s.
Arguments world {World} s.
Arguments trace {World} s.
Arguments extend {World} st w T.

(** ** Resolved parameters *)

(** [max_tries] after lines 72-73 and 76, or 133-134 and 137, for the session
    default [dflt]. *)
Definition resolve_max_tries (dflt : Z) (max_tries : option Z) : Z :=
  Z.max 1 (default dflt max_tries).

(** [delay_unexpected] after lines 74-75 and 77, or 135-136 and 138. *)
Definition resolve_delay (dflt : float) (delay_unexpected : option float) : float :=
  float_max float_zero (default dflt delay_unexpected).

(** ** Observations on traces *)

(** The responses of the transport calls made by the call itself, in order;
    those of a nested [auth_request] are inside its [EAuthRequest] event. *)
Fixpoint responses (T : list event) : list Response.t :=
  match T with
  | [] => []
  | ESend _ _ _ _ resp :: T' => resp :: responses T'
  | _ :: T' => responses T'
  end.

(** The number of attempts of the call: its own transport calls. *)
Definition attempts (T : list event) : nat := length (responses T).

Fixpoint sent_kwargs (T : list event) : list (gmap string value) :=
  match T with
  | [] => []
  | ESend _ _ _ kwargs _ :: T' => kwargs :: sent_kwargs T'
  | _ :: T' => sent_kwargs T'
  end.

Fixpoint sleeps (T : list event) : list float :=
  match T with
  | [] => []
  | ESleep secs :: T' => secs :: sleeps T'
  | _ :: T' => sleeps T'
  end.

Fixpoint warnings (T : list event) : list string :=
  match T with
  | [] => []
  | EWarning _ msg :: T' => msg :: warnings T'
  | _ :: T' => warnings T'
  end.

Fixpoint infos (T : list event) : list string :=
  match T with
  | [] => []
  | EInfo _ msg :: T' => msg :: infos T'
  | _ :: T' => infos T'
  end.

Fixpoint auth_cycles (T : list event) : list (list event) :=
  match T with
  | [] => []
  | EAuthRequest sub :: T' => sub :: auth_cycles T'
  | _ :: T' => auth_cycles T'
  end.

(** All the transport calls of a call, those of nested calls included. *)
Fixpoint transport_calls_event (e : event) : nat :=
  match e with
  | ESend _ _ _ _ _ => 1
  | EAuthRequest sub =>
      (fix go (l : list event) : nat :=
         match l with
         | [] => 0
         | e' :: l' => transport_calls_event e' + go l'
         end) sub
  | _ => 0
  end%nat.

Fixpoint transport_calls (T : list event) : nat :=
  match T with
  | [] => 0
  | e :: T' => transport_calls_event e + transport_calls T'
  end%nat.

(** [after_each P T]: for every attempt in [T], [P] holds of its response
    and of the events that follow it. *)
Fixpoint after_each (P : Response.t → list event → Prop) (T : list event) : Prop :=
  match T with
  | [] => True
  | ESend _ _ _ _ resp :: T' => P resp T' ∧ after_each P T'
  | _ :: T' => after_each P T'
  end.

(** After the pause that follows a rejected response comes the next attempt
    or, when the range is used up, the warning. *)
Definition next_attempt_or_warning (method url : string) (args : list value)
    (kwargs : gmap string value) (rest : list event) : Prop :=
  (∃ resp rest', rest = ESend method url args kwargs resp :: rest')
  ∨ (∃ lg msg rest', rest = EWarning lg msg :: rest').

(** The events after the loop: the warning of the [else] clause when the loop
    was not left by [break], then the info record when [log] is given. *)
Definition finish_events (lg : Logger) (ran_out : Z → Response.t → string)
    (tries_msg : Z → string → string) (log : option string)
    (tries : Z) (resp : Response.t) (broke : bool) : list event :=
  (if broke then [] else [EWarning lg (ran_out tries resp)])
  ++ match log with
     | Some log => [EInfo lg (tries_msg tries log)]
     | None => []
     end.

(** The traces [T] of a retry loop over the rest [rng] of its range, from
    the current values of [tries] and [resp], with the final values of
    [tries] and [resp] and whether the loop was left by [break]:
    [sent resp] says that [resp] is an answer of the transport to the request,
    [react resp R] gives the events [R] between a rejected response and the
    next turn of the loop. *)
Inductive retry_trace (method url : string) (args : list value)
    (kwargs : gmap string value) (expected : Response.t → bool)
    (sent : Response.t → Prop)
    (react : Response.t → list event → Prop)
    : list Z → Z → Response.t → list event → Z * Response.t * bool → Prop :=
| retry_exhausted tries resp :
    retry_trace method url args kwargs expected sent react [] tries resp
      [] (tries, resp, false)
| retry_break i rng tries resp r :
    sent r →
    expected r = true →
    retry_trace method url args kwargs expected sent react (i :: rng) tries resp
      [ESend method url args kwargs r] (i, r, true)
| retry_again i rng tries resp r R T res :
    sent r →
    expected r = false →
    react r R →
    retry_trace method url args kwargs expected sent react rng i r T res →
    retry_trace method url args kwargs expected sent react (i :: rng) tries resp
      (ESend method url args kwargs r :: R ++ T) res.

Section Reactions.

Context {World : Type}.
Context (send : World → string → string → list value → gmap string value
                → Response.t * World).
Context (RETRY_AFTER : string).
Context (float_of_str : string → option float).
Context (str_args : list value → string).
Context (str_kwargs : gmap string value → string).
Context (str_timedelta : Z → string).
Context (str_headers : gmap string string → string).

(** [resp] is an answer of the transport to the request. *)
Definition from_transport (method url : string) (args : list value)
    (kwargs : gmap string value) (resp : Response.t) : Prop :=
  ∃ w : World, resp = (send w method url args kwargs).1.

(** The duration slept after a rejected 429 response: the value of its
    [RETRY_AFTER] header when [float] and [time.sleep] both take it,
    [delay_unexpected] otherwise. *)
Definition retry_after_secs (resp : Response.t) (delay_unexpected : float) : float :=
  match Response.headers_get resp RETRY_AFTER with
  | Some s =>
      match float_of_str s with
      | Some f => if SFleb float_zero f then f else delay_unexpected
      | None => delay_unexpected
      end
  | None => delay_unexpected
  end.

(** After a rejected response in [auth_request]. *)
Definition react_auth (delay_unexpected : float) (resp : Response.t)
    (R : list event) : Prop :=
  R = [ESleep (if bool_decide (Response.status_code resp = Some 429)
               then retry_after_secs resp delay_unexpected
               else delay_unexpected)].

(** [sub] is the trace of a call [self.auth_request()], from some state of
    the transport. *)
Definition auth_cycle (self : AutoAuthSession.t) (sub : list event) : Prop :=
  ∃ (w w' : World) (resp : Response.t),
    auth_request send RETRY_AFTER float_of_str str_args str_kwargs
      str_timedelta str_headers None None [] None None None None ∅
      (mkState self w []) = (Ret resp, mkState self w' sub).

(** After a rejected response in [request]. *)
Definition react_request (self : AutoAuthSession.t) (delay_unexpected : float)
    (resp : Response.t) (R : list event) : Prop :=
  if bool_decide (Response.status_code resp = Some 401)
  then ∃ sub, auth_cycle self sub ∧ R = [EAuthRequest sub; ESleep delay_unexpected]
  else react_auth delay_unexpected resp R.

End Reactions.

(** ** The methods with the limit of time.sleep *)

(** [time.sleep] converts the duration to the integer clock of the platform
    before it looks at its sign, and raises [OverflowError] when it does not
    fit.  [Limited] has the two methods with that [time.sleep]; they are the
    methods above, statement by statement, but for [sleep]. *)
Module Limited.

Section Methods.

Context {World : Type}.
Context (send : World → string → string → list value → gmap string value
                → Response.t * World).
Context (RETRY_AFTER : string).
Context (float_of_str : string → option float).
Context (str_args : list value → string).
Context (str_kwargs : gmap string value → string).
Context (str_timedelta : Z → string).
Context (str_headers : gmap string string → string).

(** [too_large secs]: the duration [secs], a number, does not fit the clock
    of the platform. *)
Context (too_large : float → bool).

Notation "'let*' x := m 'in' k" := (bind m (λ x, k)) : py_scope.
Notation "m ';;;' k" := (bind m (λ _, k)) : py_scope.
Local Open Scope py_scope.

(** [time.sleep(secs)]: [ValueError] for a NaN, then [OverflowError] for a
    duration that is too large, negative or not, then [ValueError] for a
    negative one. *)
Definition sleep (secs : float) : @M World unit :=
  match secs with
  | S754_nan => raise ValueError
  | _ =>
      if too_large secs then raise OverflowError
      else if SFleb float_zero secs then emit (ESleep secs)
      else raise ValueError
  end.

(** The handling of status 429 (lines 86-93 and 152-159). *)
Definition sleep_retry_after (resp : Response.t) (delay_unexpected : float)
    : @M World unit :=
  let retry_after := Response.headers_get resp RETRY_AFTER in
  try_except_ValueError
    (match retry_after with
     | Some s => let* f := float_ float_of_str s in sleep f
     | None => sleep delay_unexpected
     end)
    (sleep delay_unexpected).

(** The [for] loop of [auth_request] (lines 80-95). *)
Fixpoint auth_request_loop (method url : string) (args : list value)
    (kwargs : gmap string value) (expected : Response.t → bool)
    (delay_unexpected : float) (rng : list Z) (tries : Z) (resp : Response.t)
    : @M World (Z * Response.t * bool) :=
  match rng with
  | [] => ret (tries, resp, false)
  | tries :: rng' =>
      let* resp := super_request send method url args kwargs in
      if expected resp then ret (tries, resp, true)
      else
        (if bool_decide (Response.status_code resp = Some 429)
         then sleep_retry_after resp delay_unexpected
         else sleep delay_unexpected);;;
        auth_request_loop method url args kwargs expected delay_unexpected
          rng' tries resp
  end.

(** [AutoAuthSession.auth_request] (lines 53-118). *)
Definition auth_request (method url : option string) (args : list value)
    (expected : option (Response.t → bool)) (max_tries : option Z)
    (delay_unexpected : option float) (log : option string)
    (kwargs : gmap string value) : @M World Response.t :=
  let* self := get_self in
  let method := default (AutoAuthSession.method self) method in
  let url := default (AutoAuthSession.url self) url in
  let kwargs := dict_merge (AutoAuthSession.kwargs self) kwargs in
  let expected := default (AutoAuthSession.auth_expected self) expected in
  let max_tries := default (AutoAuthSession.auth_max_tries self) max_tries in
  let delay_unexpected :=
    default (AutoAuthSession.auth_delay_unexpected self) delay_unexpected in
  let max_tries := Z.max 1 max_tries in
  let delay_unexpected := float_max float_zero delay_unexpected in
  let* (tries, resp, broke) :=
    auth_request_loop method url args kwargs expected delay_unexpected
      (range 1 (1 + max_tries)) 0 Response.new in
  (if broke then (ret tt : M unit)
   else
     let* self := get_self in
     warning (AutoAuthSession.logger self)
       (ran_out_text str_args str_kwargs str_timedelta str_headers
          self "auth_request" tries method url args kwargs resp));;;
  match log with
  | Some log =>
      let* self := get_self in
      info (AutoAuthSession.logger self) (tries_text self "auth_request" tries log)
  | None => (ret tt : M unit)
  end;;;
  ret resp.

(** The [for] loop of [request] (lines 141-161). *)
Fixpoint request_loop (method url : string) (args : list value)
    (kwargs : gmap string value) (expected : Response.t → bool)
    (delay_unexpected : float) (rng : list Z) (tries : Z) (resp : Response.t)
    : @M World (Z * Response.t * bool) :=
  match rng with
  | [] => ret (tries, resp, false)
  | tries :: rng' =>
      let* resp := super_request send method url args kwargs in
      if expected resp then ret (tries, resp, true)
      else
        (if bool_decide (Response.status_code resp = Some 401)
         then
           nested (auth_request None None [] None None None None ∅);;;
           sleep delay_unexpected
         else if bool_decide (Response.status_code resp = Some 429)
         then sleep_retry_after resp delay_unexpected
         else sleep delay_unexpected);;;
        request_loop method url args kwargs expected delay_unexpected
          rng' tries resp
  end.

(** [AutoAuthSession.request] (lines 120-184). *)
Definition request (method url : string) (args : list value)
    (expected : option (Response.t → bool)) (max_tries : option Z)
    (delay_unexpected : option float) (log : option string)
    (kwargs : gmap string value) : @M World Response.t :=
  let* self := get_self in
  let expected := default (AutoAuthSession.expected self) expected in
  let max_tries := default (AutoAuthSession.max_tries self) max_tries in
  let delay_unexpected :=
    default (AutoAuthSession.delay_unexpected self) delay_unexpected in
  let max_tries := Z.max 1 max_tries in
  let delay_unexpected := float_max float_zero delay_unexpected in
  let* (tries, resp, broke) :=
    request_loop method url args kwargs expected delay_unexpected
      (range 1 (1 + max_tries)) 0 Response.new in
  (if broke then (ret tt : M unit)
   else
     let* self := get_self in
     warning (AutoAuthSession.logger self)
       (ran_out_text str_args str_kwargs str_timedelta str_headers
          self "request" tries method url args kwargs resp));;;
  match log with
  | Some log =>
      let* self := get_self in
      info (AutoAuthSession.logger self) (tries_text self "request" tries log)
  | None => (ret tt : M unit)
  end;;;
  ret resp.

(** What [time.sleep(delay_unexpected)] does for a resolved delay, which is
    neither negative nor a NaN: [None] stands for [OverflowError]. *)
Definition fixed_secs (delay_unexpected : float) : option float :=
  if too_large delay_unexpected then None else Some delay_unexpected.

(** The duration slept after a rejected 429 response, [None] when
    [time.sleep] raises [OverflowError]: the value of the [RETRY_AFTER]
    header when [float] takes it and it is a number that fits and is not
    negative; no sleep when it is a number that does not fit; the fixed delay
    otherwise. *)
Definition retry_after_secs (resp : Response.t) (delay_unexpected : float)
    : option float :=
  match Response.headers_get resp RETRY_AFTER with
  | Some s =>
      match float_of_str s with
      | Some S754_nan => fixed_secs delay_unexpected
      | Some f =>
          if too_large f then None
          else if SFleb float_zero f then Some f
          else fixed_secs delay_unexpected
      | None => fixed_secs delay_unexpected
      end
  | None => fixed_secs delay_unexpected
  end.

(** What the sleep after a rejected response of [auth_request] does. *)
Definition auth_secs (delay_unexpected : float) (resp : Response.t) : option float :=
  if bool_decide (Response.status_code resp = Some 429)
  then retry_after_secs resp delay_unexpected
  else fixed_secs delay_unexpected.

(** After a rejected response in [auth_request], when the sleep returns. *)
Definition react_auth (delay_unexpected : float) (resp : Response.t)
    (R : list event) : Prop :=
  ∃ secs, auth_secs delay_unexpected resp = Some secs ∧ R = [ESleep secs].

(** After a rejected response in [auth_request], when the sleep raises
    [OverflowError]. *)
Definition overflow_auth (delay_unexpected : float) (resp : Response.t)
    (R : list event) : Prop :=
  auth_secs delay_unexpected resp = None ∧ R = [].

(** [sub] is the trace of a call [self.auth_request()] that returns. *)
Definition auth_cycle (self : AutoAuthSession.t) (sub : list event) : Prop :=
  ∃ (w w' : World) (resp : Response.t),
    auth_request None None [] None None None None ∅ (mkState self w [])
    = (Ret resp, mkState self w' sub).

(** [sub] is the trace of a call [self.auth_request()] that raises
    [OverflowError]. *)
Definition auth_cycle_overflow (self : AutoAuthSession.t) (sub : list event) : Prop :=
  ∃ (w w' : World),
    auth_request None None [] None None None None ∅ (mkState self w [])
    = (Raise OverflowError, mkState self w' sub).

(** After a rejected response in [request], when nothing is raised. *)
Definition react_request (self : AutoAuthSession.t) (delay_unexpected : float)
    (resp : Response.t) (R : list event) : Prop :=
  if bool_decide (Response.status_code resp = Some 401)
  then ∃ sub, auth_cycle self sub ∧ too_large delay_unexpected = false
              ∧ R = [EAuthRequest sub; ESleep delay_unexpected]
  else react_auth delay_unexpected resp R.

(** After a rejected response in [request], when [OverflowError] is raised:
    by the nested call, by the sleep that follows it, or by the sleep. *)
Definition overflow_request (self : AutoAuthSession.t) (delay_unexpected : float)
    (resp : Response.t) (R : list event) : Prop :=
  if bool_decide (Response.status_code resp = Some 401)
  then ∃ sub, R = [EAuthRequest sub]
              ∧ (auth_cycle_overflow self sub
                 ∨ (auth_cycle self sub ∧ too_large delay_unexpected = true))
  else overflow_auth delay_unexpected resp R.

End Methods.

End Limited.

(** The traces [T] of a retry loop of [Limited]: the final values are [None]
    when the loop is left by an [OverflowError]; [overflow resp R] gives the
    events [R] between a rejected response and that error. *)
Inductive limited_trace (method url : string) (args : list value)
    (kwargs : gmap string value) (expected : Response.t → bool)
    (sent : Response.t → Prop)
    (react overflow : Response.t → list event → Prop)
    : list Z → Z → Response.t → list event → option (Z * Response.t * bool) → Prop :=
| limited_exhausted tries resp :
    limited_trace method url args kwargs expected sent react overflow [] tries resp
      [] (Some (tries, resp, false))
| limited_break i rng tries resp r :
    sent r →
    expected r = true →
    limited_trace method url args kwargs expected sent react overflow
      (i :: rng) tries resp
      [ESend method url args kwargs r] (Some (i, r, true))
| limited_again i rng tries resp r R T res :
    sent r →
    expected r = false →
    react r R →
    limited_trace method url args kwargs expected sent react overflow rng i r T res →
    limited_trace method url args kwargs expected sent react overflow
      (i :: rng) tries resp
      (ESend method url args kwargs r :: R ++ T) res
| limited_overflow i rng tries resp r R :
    sent r →
    expected r = false →
    overflow r R →
    limited_trace method url args kwargs expected sent react overflow
      (i :: rng) tries resp
      (ESend method url args kwargs r :: R) None.

(** The events after the loop, none when the loop is left by an error. *)
Definition finish_events_opt (lg : Logger) (ran_out : Z → Response.t → string)
    (tries_msg : Z → string → string) (log : option string)
    (res : option (Z * Response.t * bool)) : list event :=
  match res with
  | Some (tries, resp, broke) => finish_events lg ran_out tries_msg log tries resp broke
  | None => []
  end.

(** ** Further observations *)

(** The requests that the call itself passes to the transport, in order:
    method, url, positional and keyword arguments. *)
Fixpoint sent_requests (T : list event)
    : list (string * string * list value * gmap string value) :=
  match T with
  | [] => []
  | ESend method url args kwargs _ :: T' => (method, url, args, kwargs) :: sent_requests T'
  | _ :: T' => sent_requests T'
  end.

(** [resp.status_code == 401] *)
Definition unauthorized (resp : Response.t) : bool :=
  bool_decide (Response.status_code resp = Some 401).

(** The rejected responses with status 401 among [rs]. *)
Definition rejected_unauthorized (expected : Response.t → bool)
    (rs : list Response.t) : list Response.t :=
  List.filter (λ r, negb (expected r) && unauthorized r) rs.

(** The same transport and trace, for a session with the attributes [s]. *)
Definition with_self {World : Type} (s : AutoAuthSession.t) (st : @state World)
    : @state World :=
  mkState s (world st) (trace st).

(** ** A scripted transport, for examples *)

Module Scripted.

Definition response (status : Z) (hdrs : list (string * string)) : Response.t :=
  {| Response.status_code := Some status;
     Response.headers := list_to_map (prod_map lower id <$> hdrs);
     Response.reason := Some "";
     Response.url := Some "https://api.example/";
     Response.elapsed := 0;
     Response.text := "" |}.

(** The transport answers with the next response of the script, and with
    200 when the script is over. *)
Definition send (w : list Response.t) (method url : string)
    (args : list value) (kwargs : gmap string value)
    : Response.t * list Response.t :=
  match w with
  | r :: w' => (r, w')
  | [] => (response 200 [], [])
  end.

Definition RETRY_AFTER : string := "Retry-After".

Fixpoint digits (s : string) (acc : Z) : option Z :=
  match s with
  | EmptyString => Some acc
  | String c s' =>
      let n := Z.of_nat (nat_of_ascii c) in
      if ((48 <=? n) && (n <=? 57))%Z then digits s' (10 * acc + (n - 48)) else None
  end.

(** [float(s)] on the strings of decimal digits; every other string is
    refused here. *)
Definition float_of_str (s : string) : option float :=
  match s with
  | EmptyString => None
  | _ => (λ n, binary_normalize 53 1024 n 0 false) <$> digits s 0
  end.

Definition str_args (args : list value) : string := "(...)".
Definition str_kwargs (kwargs : gmap string value) : string := "{...}".
Definition str_timedelta (us : Z) : string := str_int us +:+ "us".
Definition str_headers (h : gmap string string) : string := "{...}".

Definition ok (resp : Response.t) : bool :=
  bool_decide (Response.status_code resp = Some 200).

Definition auth_request :=
  auth_request send RETRY_AFTER float_of_str str_args str_kwargs
    str_timedelta str_headers.

Definition request :=
  request send RETRY_AFTER float_of_str str_args str_kwargs
    str_timedelta str_headers.

(** [AutoAuthSession('POST', 'https://api.example/auth', expected=ok)] *)
Definition session : AutoAuthSession.t :=
  AutoAuthSession.init "POST" "https://api.example/auth"
    AutoAuthSession.default_expected AutoAuthSession.default_max_tries
    AutoAuthSession.default_delay_unexpected
    ok AutoAuthSession.default_max_tries
    AutoAuthSession.default_delay_unexpected
    logging_root ∅.

Definition start (script : list Response.t) : state :=
  mkState session script [].

(** Two sessions that differ in the ordinary defaults only. *)
Definition session_a : AutoAuthSession.t :=
  AutoAuthSession.init "POST" "https://api.example/auth"
    ok 2 AutoAuthSession.default_delay_unexpected
    ok 3 AutoAuthSession.default_delay_unexpected
    logging_root ∅.

Definition session_b : AutoAuthSession.t :=
  AutoAuthSession.init "POST" "https://api.example/auth"
    ok 2 AutoAuthSession.default_delay_unexpected
    (λ _, false) 7 float_minus_one
    logging_root ∅.

(** [self.auth_request(log='x')] on [s], the transport answering 500 and
    then 429 with [Retry-After: 5]. *)
Definition auth_run (s : AutoAuthSession.t) : outcome Response.t * state :=
  auth_request None None [] None None None (Some "x") ∅
    (mkState s [response 500 []; response 429 [("Retry-After", "5")]] []).

(** A session built with the defaults of the constructor. *)
Definition session_default : AutoAuthSession.t :=
  AutoAuthSession.init "POST" "https://api.example/auth"
    AutoAuthSession.default_expected AutoAuthSession.default_max_tries
    AutoAuthSession.default_delay_unexpected
    AutoAuthSession.default_expected AutoAuthSession.default_max_tries
    AutoAuthSession.default_delay_unexpected
    logging_root ∅.

End Scripted.


(** ** The limit of CPython's time.sleep, for examples *)

Module Cpython.

(** [1e9] *)
Definition ns_per_sec : float := binary_normalize 53 1024 1000000000 0 false.

(** [2.0 ** 63] *)
Definition two_63 : float := S754_finite false 4503599627370496 11.

(** CPython converts the duration to a 64-bit number of nanoseconds:
    [secs * 1e9], as a float, has to be at least [-2**63] and less than
    [2**63]. *)
Definition too_large (secs : float) : bool :=
  let ns := SFmul 53 1024 secs ns_per_sec in
  negb (SFleb (SFopp two_63) ns && SFltb ns two_63).

Definition auth_request :=
  Limited.auth_request Scripted.send Scripted.RETRY_AFTER Scripted.float_of_str
    Scripted.str_args Scripted.str_kwargs Scripted.str_timedelta
    Scripted.str_headers too_large.

Definition request :=
  Limited.request Scripted.send Scripted.RETRY_AFTER Scripted.float_of_str
    Scripted.str_args Scripted.str_kwargs Scripted.str_timedelta
    Scripted.str_headers too_large.

End Cpython.

(** ** A transport that always answers 503, for examples *)

Module Unavailable.

(** The state of the transport counts the calls. *)
Definition send (w : nat) (method url : string) (args : list value)
    (kwargs : gmap string value) : Response.t * nat :=
  (Scripted.response 503 [], S w).

Definition request :=
  request send Scripted.RETRY_AFTER Scripted.float_of_str Scripted.str_args
    Scripted.str_kwargs Scripted.str_timedelta Scripted.str_headers.

Definition never (resp : Response.t) : bool := false.

Definition start : state := mkState Scripted.session 0%nat [].

End Unavailable.

(** * Properties *)

(** ** Floats and ranges *)

Lemma SFltb_SFleb (a b : float) : SFltb a b = true → SFleb a b = true.
Proof. unfold SFltb, SFleb. by destruct (SFcompare a b) as [[]|]. Qed.

Lemma float_zero_le_zero : SFleb float_zero float_zero = true.
Proof. reflexivity. Qed.

(** [max(0.0, d)] is never negative and never a NaN. *)
Lemma float_max_zero_nonneg (d : float) :
  SFleb float_zero (float_max float_zero d) = true.
Proof.
  unfold float_max. destruct (SFltb float_zero d) eqn:E.
  - by apply SFltb_SFleb.
  - reflexivity.
Qed.

Lemma range_length (m : Z) : 1 ≤ m → length (range 1 (1 + m)) = Z.to_nat m.
Proof. intros. unfold range. rewrite length_seqZ. f_equal. lia. Qed.

Lemma range_lookup (m : Z) (k : nat) (i : Z) :
  range 1 (1 + m) !! k = Some i → i = 1 + Z.of_nat k ∧ (k < Z.to_nat m)%nat.
Proof.
  unfold range. intros H. apply lookup_seqZ in H. lia.
Qed.

Lemma range_last (m : Z) (d : Z) : 1 ≤ m → List.last (range 1 (1 + m)) d = m.
Proof.
  intros Hm. unfold range, seqZ.
  replace (Z.to_nat (1 + m - 1)) with (S (Z.to_nat (m - 1))) by lia.
  rewrite seq_S, fmap_app. simpl. rewrite List.last_last. lia.
Qed.

Lemma range_nonempty (m : Z) : 1 ≤ m → range 1 (1 + m) ≠ [].
Proof.
  intros Hm E. apply (f_equal length) in E. rewrite range_length in E by done.
  simpl in E. lia.
Qed.

Lemma last_cons_default {A} (a : A) (l : list A) (d d' : A) :
  List.last (a :: l) d = List.last (a :: l) d'.
Proof. revert a. induction l as [|b l IH]; intros a; [done|]. apply (IH b). Qed.

(** ** Observations on appended traces *)

Lemma responses_app (T1 T2 : list event) :
  responses (T1 ++ T2) = responses T1 ++ responses T2.
Proof. induction T1 as [|[] T1 IH]; simpl; by rewrite ?IH. Qed.

Lemma sent_kwargs_app (T1 T2 : list event) :
  sent_kwargs (T1 ++ T2) = sent_kwargs T1 ++ sent_kwargs T2.
Proof. induction T1 as [|[] T1 IH]; simpl; by rewrite ?IH. Qed.

Lemma sleeps_app (T1 T2 : list event) : sleeps (T1 ++ T2) = sleeps T1 ++ sleeps T2.
Proof. induction T1 as [|[] T1 IH]; simpl; by rewrite ?IH. Qed.

Lemma warnings_app (T1 T2 : list event) :
  warnings (T1 ++ T2) = warnings T1 ++ warnings T2.
Proof. induction T1 as [|[] T1 IH]; simpl; by rewrite ?IH. Qed.

Lemma infos_app (T1 T2 : list event) : infos (T1 ++ T2) = infos T1 ++ infos T2.
Proof. induction T1 as [|[] T1 IH]; simpl; by rewrite ?IH. Qed.

Lemma auth_cycles_app (T1 T2 : list event) :
  auth_cycles (T1 ++ T2) = auth_cycles T1 ++ auth_cycles T2.
Proof. induction T1 as [|[] T1 IH]; simpl; by rewrite ?IH. Qed.

Lemma transport_calls_app (T1 T2 : list event) :
  transport_calls (T1 ++ T2) = (transport_calls T1 + transport_calls T2)%nat.
Proof. induction T1 as [|e T1 IH]; simpl; [done|]. rewrite IH. lia. Qed.

Lemma transport_calls_nested (sub : list event) :
  transport_calls_event (EAuthRequest sub) = transport_calls sub.
Proof. simpl. induction sub as [|e sub IH]; simpl; [done|]. by rewrite IH. Qed.

Lemma attempts_app (T1 T2 : list event) :
  attempts (T1 ++ T2) = (attempts T1 + attempts T2)%nat.
Proof. unfold attempts. by rewrite responses_app, length_app. Qed.

Lemma after_each_app (P : Response.t → list event → Prop) (R T : list event) :
  responses R = [] → after_each P (R ++ T) ↔ after_each P T.
Proof.
  induction R as [|[] R IH]; simpl; intros HR; try done; by apply IH.
Qed.

Lemma after_each_impl (P Q : Response.t → list event → Prop) (T : list event) :
  (∀ r rest, P r rest → Q r rest) → after_each P T → after_each Q T.
Proof.
  intros HPQ. induction T as [|[] T IH]; simpl; try done.
  intros [HP HT]. split; [by apply HPQ|by apply IH].
Qed.

Lemma after_each_no_send (P : Response.t → list event → Prop) (T : list event) :
  responses T = [] → after_each P T.
Proof. induction T as [|[] T IH]; simpl; intros HT; try done; by apply IH. Qed.

Section FinishEvents.

Context (lg : Logger) (ran_out : Z → Response.t → string)
  (tries_msg : Z → string → string) (log : option string)
  (tries : Z) (resp : Response.t) (broke : bool).

Local Abbreviation F := (finish_events lg ran_out tries_msg log tries resp broke).

Lemma finish_events_responses : responses F = [].
Proof. unfold finish_events. by destruct broke, log. Qed.

Lemma finish_events_attempts : attempts F = 0%nat.
Proof. unfold attempts. by rewrite finish_events_responses. Qed.

Lemma finish_events_sent_kwargs : sent_kwargs F = [].
Proof. unfold finish_events. by destruct broke, log. Qed.

Lemma finish_events_sleeps : sleeps F = [].
Proof. unfold finish_events. by destruct broke, log. Qed.

Lemma finish_events_auth_cycles : auth_cycles F = [].
Proof. unfold finish_events. by destruct broke, log. Qed.

Lemma finish_events_transport_calls : transport_calls F = 0%nat.
Proof. unfold finish_events. by destruct broke, log. Qed.

Lemma finish_events_warnings :
  warnings F = if broke then [] else [ran_out tries resp].
Proof. unfold finish_events. by destruct broke, log. Qed.

End FinishEvents.

(** ** Running the methods *)

Ltac unfold_retry_after :=
  unfold sleep_retry_after, retry_after_secs, try_except_ValueError.
Ltac unfold_auth_request := unfold auth_request, get_self.
Ltac unfold_request := unfold request, get_self.
Ltac unfold_reactions := unfold react_request, react_auth.
Ltac unfold_auth_cycle := unfold auth_cycle.

Section Runs.

Context {World : Type}.
Context (send : World → string → string → list value → gmap string value
                → Response.t * World).
Context (RETRY_AFTER : string).
Context (float_of_str : string → option float).
Context (str_args : list value → string).
Context (str_kwargs : gmap string value → string).
Context (str_timedelta : Z → string).
Context (str_headers : gmap string string → string).

Local Abbreviation state := (@state World).
Local Abbreviation auth_request_loop := (auth_request_loop send RETRY_AFTER float_of_str).
Local Abbreviation request_loop :=
  (request_loop send RETRY_AFTER float_of_str str_args str_kwargs
     str_timedelta str_headers).
Local Abbreviation auth_request :=
  (auth_request send RETRY_AFTER float_of_str str_args str_kwargs
     str_timedelta str_headers).
Local Abbreviation request :=
  (request send RETRY_AFTER float_of_str str_args str_kwargs
     str_timedelta str_headers).
Local Abbreviation ran_out_text :=
  (ran_out_text str_args str_kwargs str_timedelta str_headers).
Local Abbreviation retry_after_secs := (retry_after_secs RETRY_AFTER float_of_str).
Local Abbreviation from_transport := (from_transport send).
Local Abbreviation react_auth := (react_auth RETRY_AFTER float_of_str).
Local Abbreviation react_request :=
  (react_request send RETRY_AFTER float_of_str str_args str_kwargs
     str_timedelta str_headers).
Local Abbreviation auth_cycle :=
  (auth_cycle send RETRY_AFTER float_of_str str_args str_kwargs
     str_timedelta str_headers).

Lemma extend_extend (st : state) (w1 w2 : World) (T1 T2 : list event) :
  extend (extend st w1 T1) w2 T2 = extend st w2 (T1 ++ T2).
Proof. unfold extend. simpl. by rewrite app_assoc. Qed.

Lemma sleep_run (secs : float) (st : state) :
  SFleb float_zero secs = true →
  sleep secs st = (Ret tt, extend st (world st) [ESleep secs]).
Proof. intros H. unfold sleep. by rewrite H. Qed.

Lemma sleep_retry_after_run (resp : Response.t) (delay : float) (st : state) :
  SFleb float_zero delay = true →
  sleep_retry_after RETRY_AFTER float_of_str resp delay st
  = (Ret tt, extend st (world st) [ESleep (retry_after_secs resp delay)]).
Proof.
  intros Hd. unfold_retry_after.
  destruct (Response.headers_get resp RETRY_AFTER) as [s|].
  - unfold bind, float_. destruct (float_of_str s) as [f|].
    + unfold ret. destruct (SFleb float_zero f) eqn:Hf.
      * by rewrite sleep_run.
      * unfold sleep at 1. rewrite Hf. unfold raise. by rewrite sleep_run.
    + unfold raise. by rewrite sleep_run.
  - by rewrite sleep_run.
Qed.

Lemma super_request_run (method url : string) (args : list value)
    (kwargs : gmap string value) (st : state) :
  super_request send method url args kwargs st
  = (Ret (send (world st) method url args kwargs).1,
     extend st (send (world st) method url args kwargs).2
       [ESend method url args kwargs (send (world st) method url args kwargs).1]).
Proof. unfold super_request. by destruct (send _ _ _ _ _). Qed.

(** The loop of [auth_request] returns, and its trace is a [retry_trace]. *)
Lemma auth_request_loop_run (method url : string) (args : list value)
    (kwargs : gmap string value) (expected : Response.t → bool) (delay : float)
    (rng : list Z) (tries : Z) (resp : Response.t) (st : state) :
  SFleb float_zero delay = true →
  ∃ w' T res,
    auth_request_loop method url args kwargs expected delay rng tries resp st
    = (Ret res, extend st w' T)
    ∧ retry_trace method url args kwargs expected
        (from_transport method url args kwargs) (react_auth delay)
        rng tries resp T res.
Proof.
  intros Hd. revert tries resp st.
  induction rng as [|i rng IH]; intros tries resp st.
  - exists (world st), [], (tries, resp, false). split; [|constructor].
    unfold extend. simpl. unfold ret. rewrite app_nil_r. by destruct st.
  - simpl. unfold bind at 1. rewrite super_request_run.
    set (r := (send (world st) method url args kwargs).1).
    set (w1 := (send (world st) method url args kwargs).2).
    destruct (expected r) eqn:He.
    + exists w1, [ESend method url args kwargs r], (i, r, true).
      split; [done|]. constructor; [by exists (world st)|done].
    + unfold bind at 1.
      set (secs := if bool_decide (Response.status_code r = Some 429)
                   then retry_after_secs r delay else delay).
      assert ((if bool_decide (Response.status_code r = Some 429)
               then sleep_retry_after RETRY_AFTER float_of_str r delay
               else sleep delay)
                (extend st w1 [ESend method url args kwargs r])
              = (Ret tt, extend (extend st w1 [ESend method url args kwargs r])
                           w1 [ESleep secs])) as ->.
      { subst secs. case_bool_decide.
        - by rewrite sleep_retry_after_run.
        - by rewrite sleep_run. }
      rewrite extend_extend.
      destruct (IH i r (extend st w1 ([ESend method url args kwargs r] ++ [ESleep secs])))
        as (w' & T & res & Hrun & HT).
      exists w', (ESend method url args kwargs r :: [ESleep secs] ++ T), res.
      split.
      * rewrite Hrun, extend_extend. done.
      * apply retry_again; [by exists (world st)|done|done|done].
Qed.

(** [auth_request] returns; its trace is a [retry_trace] over
    [range(1, 1 + max_tries)] followed by the events after the loop. *)
Lemma auth_request_run (method url : option string) (args : list value)
    (expected : option (Response.t → bool)) (max_tries : option Z)
    (delay_unexpected : option float) (log : option string)
    (kwargs : gmap string value) (st : state) :
  let s := self st in
  let method' := default (AutoAuthSession.method s) method in
  let url' := default (AutoAuthSession.url s) url in
  let kwargs' := dict_merge (AutoAuthSession.kwargs s) kwargs in
  let expected' := default (AutoAuthSession.auth_expected s) expected in
  let max_tries' := resolve_max_tries (AutoAuthSession.auth_max_tries s) max_tries in
  let delay := resolve_delay (AutoAuthSession.auth_delay_unexpected s) delay_unexpected in
  ∃ w' T tries resp broke,
    auth_request method url args expected max_tries delay_unexpected log kwargs st
    = (Ret resp,
       extend st w'
         (T ++ finish_events (AutoAuthSession.logger s)
                 (λ t r, ran_out_text s "auth_request" t method' url' args kwargs' r)
                 (tries_text s "auth_request") log tries resp broke))
    ∧ retry_trace method' url' args kwargs' expected'
        (from_transport method' url' args kwargs') (react_auth delay)
        (range 1 (1 + max_tries')) 0 Response.new T (tries, resp, broke).
Proof.
  intros s method' url' kwargs' expected' max_tries' delay.
  destruct (auth_request_loop_run method' url' args kwargs' expected' delay
              (range 1 (1 + max_tries')) 0 Response.new st
              (float_max_zero_nonneg _))
    as (w' & T & [[tries resp] broke] & Hrun & HT).
  exists w', T, tries, resp, broke. split; [|done].
  unfold_auth_request. unfold bind at 1.
  fold s method' url' kwargs' expected'.
  change (Z.max 1 (default (AutoAuthSession.auth_max_tries s) max_tries))
    with max_tries'.
  change (float_max float_zero
            (default (AutoAuthSession.auth_delay_unexpected s) delay_unexpected))
    with delay.
  unfold bind at 1. rewrite Hrun.
  unfold finish_events, bind, ret, warning, info, emit, get_self, extend.
  destruct broke, log; simpl; rewrite <- ?app_assoc, ?app_nil_r; reflexivity.
Qed.

(** The call [self.auth_request()] in [request] returns; it adds one
    [EAuthRequest] event, whose trace is an [auth_cycle]. *)
Lemma nested_auth_request_run (st : state) :
  ∃ w' sub resp,
    nested (auth_request None None [] None None None None ∅) st
    = (Ret resp, extend st w' [EAuthRequest sub])
    ∧ auth_cycle (self st) sub.
Proof.
  destruct (auth_request_run None None [] None None None None ∅
              (mkState (self st) (world st) []))
    as (w' & T & tries & resp & broke & Hrun & _).
  simpl in Hrun. unfold extend in Hrun. simpl in Hrun.
  eexists w', _, resp. split.
  - unfold nested. rewrite Hrun. reflexivity.
  - unfold_auth_cycle. eauto.
Qed.

(** The loop of [request] returns, and its trace is a [retry_trace]. *)
Lemma request_loop_run (method url : string) (args : list value)
    (kwargs : gmap string value) (expected : Response.t → bool) (delay : float)
    (rng : list Z) (tries : Z) (resp : Response.t) (st : state) :
  SFleb float_zero delay = true →
  ∃ w' T res,
    request_loop method url args kwargs expected delay rng tries resp st
    = (Ret res, extend st w' T)
    ∧ retry_trace method url args kwargs expected
        (from_transport method url args kwargs) (react_request (self st) delay)
        rng tries resp T res.
Proof.
  intros Hd. revert tries resp st.
  induction rng as [|i rng IH]; intros tries resp st.
  - exists (world st), [], (tries, resp, false). split; [|constructor].
    unfold extend. simpl. unfold ret. rewrite app_nil_r. by destruct st.
  - simpl. unfold bind at 1. rewrite super_request_run.
    set (r := (send (world st) method url args kwargs).1).
    set (w1 := (send (world st) method url args kwargs).2).
    set (st1 := extend st w1 [ESend method url args kwargs r]).
    destruct (expected r) eqn:He.
    + exists w1, [ESend method url args kwargs r], (i, r, true).
      split; [done|]. constructor; [by exists (world st)|done].
    + unfold bind at 1.
      assert (∃ w2 R,
        (if bool_decide (Response.status_code r = Some 401)
         then bind (nested (auth_request None None [] None None None None ∅))
                (λ _, sleep delay)
         else if bool_decide (Response.status_code r = Some 429)
              then sleep_retry_after RETRY_AFTER float_of_str r delay
              else sleep delay) st1
        = (Ret tt, extend st1 w2 R)
        ∧ react_request (self st) delay r R) as (w2 & R & -> & HR).
      { unfold_reactions. case_bool_decide.
        - destruct (nested_auth_request_run st1) as (w2 & sub & ra & Hn & Hc).
          exists w2, [EAuthRequest sub; ESleep delay]. split; [|by eauto].
          unfold bind. rewrite Hn, sleep_run by done.
          by rewrite extend_extend.
        - exists w1. eexists. split; [|reflexivity].
          case_bool_decide.
          + by rewrite sleep_retry_after_run.
          + by rewrite sleep_run. }
      subst st1. rewrite extend_extend.
      destruct (IH i r (extend st w2 ([ESend method url args kwargs r] ++ R)))
        as (w' & T & res & Hrun & HT).
      exists w', (ESend method url args kwargs r :: R ++ T), res.
      split.
      * rewrite Hrun, extend_extend. by rewrite <- app_assoc.
      * apply retry_again; [by exists (world st)|done|done|done].
Qed.

(** [request] returns; its trace is a [retry_trace] over
    [range(1, 1 + max_tries)] followed by the events after the loop. *)
Lemma request_run (method url : string) (args : list value)
    (expected : option (Response.t → bool)) (max_tries : option Z)
    (delay_unexpected : option float) (log : option string)
    (kwargs : gmap string value) (st : state) :
  let s := self st in
  let expected' := default (AutoAuthSession.expected s) expected in
  let max_tries' := resolve_max_tries (AutoAuthSession.max_tries s) max_tries in
  let delay := resolve_delay (AutoAuthSession.delay_unexpected s) delay_unexpected in
  ∃ w' T tries resp broke,
    request method url args expected max_tries delay_unexpected log kwargs st
    = (Ret resp,
       extend st w'
         (T ++ finish_events (AutoAuthSession.logger s)
                 (λ t r, ran_out_text s "request" t method url args kwargs r)
                 (tries_text s "request") log tries resp broke))
    ∧ retry_trace method url args kwargs expected'
        (from_transport method url args kwargs) (react_request s delay)
        (range 1 (1 + max_tries')) 0 Response.new T (tries, resp, broke).
Proof.
  intros s expected' max_tries' delay.
  destruct (request_loop_run method url args kwargs expected' delay
              (range 1 (1 + max_tries')) 0 Response.new st
              (float_max_zero_nonneg _))
    as (w' & T & [[tries resp] broke] & Hrun & HT).
  exists w', T, tries, resp, broke. split; [|done].
  unfold_request. unfold bind at 1.
  fold s expected'.
  change (Z.max 1 (default (AutoAuthSession.max_tries s) max_tries))
    with max_tries'.
  change (float_max float_zero
            (default (AutoAuthSession.delay_unexpected s) delay_unexpected))
    with delay.
  unfold bind at 1. rewrite Hrun.
  unfold finish_events, bind, ret, warning, info, emit, get_self, extend.
  destruct broke, log; simpl; rewrite <- ?app_assoc, ?app_nil_r; reflexivity.
Qed.

End Runs.

(** ** The shape of the traces of a retry loop *)

Section RetryTraces.

Context (method url : string) (args : list value) (kwargs : gmap string value).
Context (expected : Response.t → bool).
Context (sent : Response.t → Prop).
Context (react : Response.t → list event → Prop).

(** Between two attempts the call itself neither calls the transport nor
    logs. *)
Hypothesis react_quiet : ∀ r R,
  react r R → responses R = [] ∧ sent_kwargs R = [] ∧ warnings R = [] ∧ infos R = [].

Local Abbreviation rejected := (λ r : Response.t, expected r = false).
Local Abbreviation loop_trace :=
  (retry_trace method url args kwargs expected sent react).

Lemma retry_trace_attempts_le rng tries resp T res :
  loop_trace rng tries resp T res → (attempts T ≤ length rng)%nat.
Proof.
  unfold attempts.
  induction 1 as [| |i rng tries resp r R T res Hs He HR HT IH]; simpl; try lia.
  rewrite responses_app, length_app.
  destruct (react_quiet _ _ HR) as (-> & _). simpl. lia.
Qed.

Lemma retry_trace_attempts_pos rng tries resp T res :
  loop_trace rng tries resp T res → rng ≠ [] → (1 ≤ attempts T)%nat.
Proof. destruct 1; intros Hne; unfold attempts; simpl; [done|lia|lia]. Qed.

Lemma retry_trace_no_logs rng tries resp T res :
  loop_trace rng tries resp T res → warnings T = [] ∧ infos T = [].
Proof.
  induction 1 as [| |i rng tries resp r R T res Hs He HR HT IH]; simpl; try done.
  rewrite warnings_app, infos_app.
  destruct (react_quiet _ _ HR) as (_ & _ & -> & ->). by destruct IH as [-> ->].
Qed.

(** Every attempt passes the same keyword arguments to the transport. *)
Lemma retry_trace_sent_kwargs rng tries resp T res :
  loop_trace rng tries resp T res → sent_kwargs T = replicate (attempts T) kwargs.
Proof.
  induction 1 as [| |i rng tries resp r R T res Hs He HR HT IH]; simpl; try done.
  unfold attempts in *. simpl. rewrite responses_app, sent_kwargs_app, length_app.
  destruct (react_quiet _ _ HR) as (-> & -> & _). simpl. by rewrite IH.
Qed.

(** A loop that ends without [break] has used its whole range, every
    response was rejected, and the last one is the current one. *)
Lemma retry_trace_exhausted rng tries resp T res :
  loop_trace rng tries resp T res → res.2 = false →
  Forall rejected (responses T) ∧ attempts T = length rng
  ∧ res.1.1 = List.last rng tries ∧ res.1.2 = List.last (responses T) resp.
Proof.
  induction 1 as [| |i rng tries resp r R T res Hs He HR HT IH]; simpl; intros Hb;
    try done.
  destruct (IH Hb) as (Hrej & Hlen & Htries & Hresp).
  unfold attempts in *. simpl. rewrite responses_app.
  destruct (react_quiet _ _ HR) as (-> & _). simpl.
  repeat split.
  - by constructor.
  - by rewrite Hlen.
  - rewrite Htries. destruct rng; [done|]. apply last_cons_default.
  - rewrite Hresp. destruct (responses T); [done|]. apply last_cons_default.
Qed.

(** A loop left by [break] ends with the accepted response, every response
    before it was rejected, and [tries] is the number of that attempt. *)
Lemma retry_trace_broke rng tries resp T res :
  loop_trace rng tries resp T res → res.2 = true →
  ∃ T0, T = T0 ++ [ESend method url args kwargs res.1.2]
        ∧ expected res.1.2 = true
        ∧ Forall rejected (responses T0)
        ∧ rng !! attempts T0 = Some res.1.1.
Proof.
  induction 1 as [|i rng tries resp r Hs He|i rng tries resp r R T res Hs He HR HT IH];
    simpl; intros Hb; try done.
  - exists []. by repeat split.
  - destruct (IH Hb) as (T0 & -> & Hacc & Hrej & Hi).
    exists (ESend method url args kwargs r :: R ++ T0). repeat split.
    + simpl. by rewrite app_assoc.
    + done.
    + simpl. rewrite responses_app. destruct (react_quiet _ _ HR) as (-> & _).
      by constructor.
    + unfold attempts in *. simpl. rewrite responses_app, length_app.
      destruct (react_quiet _ _ HR) as (-> & _). done.
Qed.

(** A trace is empty only when the rest of the range is, and otherwise
    begins with an attempt. *)
Lemma retry_trace_head rng tries resp T res :
  loop_trace rng tries resp T res →
  (T = [] ∧ res.2 = false) ∨ ∃ r T', T = ESend method url args kwargs r :: T'.
Proof. destruct 1; eauto. Qed.

(** What holds after every accepted response and after every rejected one
    holds after each attempt, also with the events [F] after the loop. *)
Lemma retry_trace_after_each (P : Response.t → list event → Prop)
    (F : Z * Response.t * bool → list event) rng tries resp T res :
  (∀ res, responses (F res) = []) →
  (∀ i r, sent r → expected r = true → P r (F (i, r, true))) →
  (∀ r R rng' i T' res',
     sent r → expected r = false → react r R → loop_trace rng' i r T' res' →
     P r (R ++ T' ++ F res')) →
  loop_trace rng tries resp T res →
  after_each P (T ++ F res).
Proof.
  intros HF Hacc Hrej HT.
  induction HT as [| |i rng tries resp r R T res Hs He HR HT IH]; simpl.
  - by apply after_each_no_send.
  - split; [by apply Hacc|]. by apply after_each_no_send.
  - split.
    + rewrite <- app_assoc. by eapply Hrej.
    + rewrite <- app_assoc. apply after_each_app; [|done].
      by destruct (react_quiet _ _ HR) as (-> & _).
Qed.

(** An accepted response is the last event of the loop: the loop was left
    by [break] at that attempt. *)
Lemma retry_trace_accepted rng tries resp T res (k : nat) rk :
  loop_trace rng tries resp T res →
  responses T !! k = Some rk → expected rk = true →
  res.2 = true ∧ res.1.2 = rk ∧ rng !! k = Some res.1.1
  ∧ ∃ T0, T = T0 ++ [ESend method url args kwargs rk] ∧ attempts T0 = k.
Proof.
  intros HT. revert k.
  induction HT as [|i rng tries resp r Hs He|i rng tries resp r R T res Hs He HR HT IH];
    intros k Hk Hacc; simpl in Hk.
  - done.
  - destruct k as [|k]; [|done]. injection Hk as ->.
    repeat split. by exists [].
  - rewrite responses_app in Hk. destruct (react_quiet _ _ HR) as (HR0 & _).
    rewrite HR0 in Hk. simpl in Hk.
    destruct k as [|k]; simpl in Hk.
    + injection Hk as ->. congruence.
    + destruct (IH k Hk Hacc) as (Hb & Hr & Hi & T0 & -> & Hk0).
      repeat split; try done.
      exists (ESend method url args kwargs r :: R ++ T0). split.
      * simpl. by rewrite app_assoc.
      * unfold attempts in *. simpl. rewrite responses_app, HR0. simpl.
        by rewrite Hk0.
Qed.

Lemma retry_trace_nil tries resp T res :
  loop_trace [] tries resp T res → T = [] ∧ res = (tries, resp, false).
Proof. by inversion 1. Qed.

(** A turn of the loop on a response that cannot be accepted. *)
Lemma retry_trace_cons_rejected i rng tries resp T res :
  (∀ r, sent r → expected r = false) →
  loop_trace (i :: rng) tries resp T res →
  ∃ r R T', sent r ∧ react r R ∧ loop_trace rng i r T' res
            ∧ T = ESend method url args kwargs r :: R ++ T'.
Proof.
  intros Hrej. inversion 1 as [|? ? ? ? r Hs He|? ? ? ? r R T' ? Hs He HR HT]; subst.
  - rewrite (Hrej r Hs) in He. done.
  - by exists r, R, T'.
Qed.

Lemma retry_trace_sent rng tries resp T res :
  loop_trace rng tries resp T res → Forall sent (responses T).
Proof.
  induction 1 as [| |i rng tries resp r R T res Hs He HR HT IH]; simpl.
  - constructor.
  - by repeat constructor.
  - rewrite responses_app. destruct (react_quiet _ _ HR) as (-> & _).
    by constructor.
Qed.

(** The transport calls of the loop are its attempts and those made
    between the attempts, at most [c] each time. *)
Lemma retry_trace_transport_calls (c : nat) rng tries resp T res :
  (∀ r R, react r R → (transport_calls R ≤ c)%nat) →
  loop_trace rng tries resp T res →
  (attempts T ≤ transport_calls T ≤ attempts T * (1 + c))%nat.
Proof.
  intros Hc. unfold attempts.
  induction 1 as [| |i rng tries resp r R T res Hs He HR HT IH]; simpl; try lia.
  rewrite responses_app, length_app, transport_calls_app.
  destruct (react_quiet _ _ HR) as (-> & _). specialize (Hc _ _ HR). simpl. lia.
Qed.

Lemma retry_trace_no_cycles rng tries resp T res :
  (∀ r R, react r R → auth_cycles R = []) →
  loop_trace rng tries resp T res → auth_cycles T = [].
Proof.
  intros Hc.
  induction 1 as [| |i rng tries resp r R T res Hs He HR HT IH]; simpl; try done.
  by rewrite auth_cycles_app, IH, (Hc _ _ HR).
Qed.

Lemma retry_trace_transport_calls_plain rng tries resp T res :
  (∀ r R, react r R → auth_cycles R = [] → transport_calls R = 0%nat) →
  loop_trace rng tries resp T res →
  auth_cycles T = [] → transport_calls T = attempts T.
Proof.
  intros Hc. unfold attempts.
  induction 1 as [| |i rng tries resp r R T res Hs He HR HT IH]; simpl; try done.
  rewrite auth_cycles_app. intros [HR0 HT0]%app_eq_nil.
  rewrite responses_app, length_app, transport_calls_app.
  destruct (react_quiet _ _ HR) as (-> & _).
  rewrite (Hc _ _ HR HR0), (IH HT0). done.
Qed.

End RetryTraces.

Section Reacting.

Context {World : Type}.
Context (send : World → string → string → list value → gmap string value
                → Response.t * World).
Context (RETRY_AFTER : string).
Context (float_of_str : string → option float).
Context (str_args : list value → string).
Context (str_kwargs : gmap string value → string).
Context (str_timedelta : Z → string).
Context (str_headers : gmap string string → string).

Lemma react_auth_quiet (delay : float) r R :
  react_auth RETRY_AFTER float_of_str delay r R →
  responses R = [] ∧ sent_kwargs R = [] ∧ warnings R = [] ∧ infos R = [].
Proof. by intros ->. Qed.

Lemma react_request_quiet (s : AutoAuthSession.t) (delay : float) r R :
  react_request send RETRY_AFTER float_of_str str_args str_kwargs
    str_timedelta str_headers s delay r R →
  responses R = [] ∧ sent_kwargs R = [] ∧ warnings R = [] ∧ infos R = [].
Proof.
  unfold react_request. case_bool_decide.
  - by intros (sub & _ & ->).
  - apply react_auth_quiet.
Qed.

End Reacting.

(** ** The constructor *)

(** X1: for every input of the constructor, negative numbers and NaN
    included, the stored ordinary defaults are [max(1, max_tries)] and
    [max(0.0, delay_unexpected)]: [max_tries] is at least 1 and
    [delay_unexpected] is neither negative nor a NaN (lines 36-37). *)
Lemma init_ordinary_defaults_clamped method url auth_expected auth_max_tries
    auth_delay_unexpected expected max_tries delay_unexpected logger kwargs :
  let s := AutoAuthSession.init method url auth_expected auth_max_tries
             auth_delay_unexpected expected max_tries delay_unexpected logger kwargs in
  AutoAuthSession.max_tries s = Z.max 1 max_tries
  ∧ AutoAuthSession.delay_unexpected s = float_max float_zero delay_unexpected
  ∧ 1 ≤ AutoAuthSession.max_tries s
  ∧ SFleb float_zero (AutoAuthSession.delay_unexpected s) = true.
Proof.
  simpl. repeat split; [lia|apply float_max_zero_nonneg].
Qed.

(** C2: the constructor stores the defaults of the authentication pair as
    they are given (lines 33-34), without the clamping it applies to the
    ordinary pair: built with [auth_max_tries=0] and
    [auth_delay_unexpected=-1.0], the session holds the authentication
    defaults 0 and -1.0, below the minima 1 and 0.0, next to the ordinary
    defaults 1 and 0.0 obtained from the same inputs.  A later call of
    [auth_request] still resolves them to 1 and 0.0 (lines 76-77). *)
Theorem init_auth_defaults_stored_unclamped :
  let s := AutoAuthSession.init "POST" "https://api.example/auth"
             AutoAuthSession.default_expected 0 float_minus_one
             AutoAuthSession.default_expected 0 float_minus_one
             logging_root ∅ in
  AutoAuthSession.auth_max_tries s = 0
  ∧ AutoAuthSession.auth_delay_unexpected s = float_minus_one
  ∧ SFleb float_zero (AutoAuthSession.auth_delay_unexpected s) = false
  ∧ AutoAuthSession.max_tries s = 1
  ∧ AutoAuthSession.delay_unexpected s = float_zero
  ∧ resolve_max_tries (AutoAuthSession.auth_max_tries s) None = 1
  ∧ resolve_delay (AutoAuthSession.auth_delay_unexpected s) None = float_zero.
Proof. simpl. repeat split. Qed.

(** ** The two retry loops *)

Lemma dict_merge_lookup (a b : gmap string value) (key : string) :
  dict_merge a b !! key = match b !! key with
                          | Some v => Some v
                          | None => a !! key
                          end.
Proof.
  unfold dict_merge. rewrite lookup_union.
  by destruct (b !! key), (a !! key).
Qed.

Section Claims.

Context {World : Type}.
Context (send : World → string → string → list value → gmap string value
                → Response.t * World).
Context (RETRY_AFTER : string).
Context (float_of_str : string → option float).
Context (str_args : list value → string).
Context (str_kwargs : gmap string value → string).
Context (str_timedelta : Z → string).
Context (str_headers : gmap string string → string).

Local Abbreviation state := (@state World).
Local Abbreviation auth_request :=
  (auth_request send RETRY_AFTER float_of_str str_args str_kwargs
     str_timedelta str_headers).
Local Abbreviation request :=
  (request send RETRY_AFTER float_of_str str_args str_kwargs
     str_timedelta str_headers).
Local Abbreviation ran_out_text :=
  (ran_out_text str_args str_kwargs str_timedelta str_headers).
Local Abbreviation retry_after_secs := (retry_after_secs RETRY_AFTER float_of_str).
Local Abbreviation react_auth := (react_auth RETRY_AFTER float_of_str).
Local Abbreviation react_request :=
  (react_request send RETRY_AFTER float_of_str str_args str_kwargs
     str_timedelta str_headers).
Local Abbreviation auth_cycle :=
  (auth_cycle send RETRY_AFTER float_of_str str_args str_kwargs
     str_timedelta str_headers).
Local Abbreviation auth_request_run :=
  (auth_request_run send RETRY_AFTER float_of_str str_args str_kwargs
     str_timedelta str_headers).
Local Abbreviation request_run :=
  (request_run send RETRY_AFTER float_of_str str_args str_kwargs
     str_timedelta str_headers).
Local Abbreviation react_auth_quiet := (react_auth_quiet RETRY_AFTER float_of_str).
Local Abbreviation react_request_quiet :=
  (react_request_quiet send RETRY_AFTER float_of_str str_args str_kwargs
     str_timedelta str_headers).

Lemma resolve_max_tries_pos (dflt : Z) (max_tries : option Z) :
  1 ≤ resolve_max_tries dflt max_tries.
Proof. unfold resolve_max_tries. lia. Qed.

(** A call [self.auth_request()] invokes the transport at least once and
    at most as often as the clamped authentication default allows. *)
Lemma auth_cycle_transport_calls (s : AutoAuthSession.t) (sub : list event) :
  auth_cycle s sub →
  (1 ≤ transport_calls sub
     ≤ Z.to_nat (resolve_max_tries (AutoAuthSession.auth_max_tries s) None))%nat.
Proof.
  intros (w & w' & resp & Hrun).
  destruct (auth_request_run None None [] None None None None ∅ (mkState s w []))
    as (w2 & T & tries & resp2 & broke & Hrun2 & HT).
  simpl in Hrun2, HT. rewrite Hrun in Hrun2.
  injection Hrun2 as _ _ ->.
  rewrite transport_calls_app, finish_events_transport_calls.
  pose proof (resolve_max_tries_pos (AutoAuthSession.auth_max_tries s) None) as Hpos.
  pose proof (retry_trace_attempts_le _ _ _ _ _ _ _ (react_auth_quiet _) _ _ _ _ _ HT) as Hle.
  pose proof (retry_trace_attempts_pos _ _ _ _ _ _ _ _ _ _ _ _ HT (range_nonempty _ Hpos)) as Hge.
  rewrite range_length in Hle by done.
  assert (∀ r R, react_auth (resolve_delay (AutoAuthSession.auth_delay_unexpected s) None) r R
                 → (transport_calls R ≤ 0)%nat) as H0 by (by intros r R ->).
  pose proof (retry_trace_transport_calls _ _ _ _ _ _ _ (react_auth_quiet _) 0
                _ _ _ _ _ H0 HT) as Hc.
  lia.
Qed.

Lemma react_auth_transport_calls (delay : float) r R :
  react_auth delay r R → transport_calls R = 0%nat ∧ auth_cycles R = [].
Proof. by intros ->. Qed.

Lemma react_request_transport_calls (s : AutoAuthSession.t) (delay : float) r R :
  react_request s delay r R →
  (transport_calls R
     ≤ Z.to_nat (resolve_max_tries (AutoAuthSession.auth_max_tries s) None))%nat
  ∧ (auth_cycles R = [] → transport_calls R = 0%nat).
Proof.
  unfold_reactions. case_bool_decide.
  - intros (sub & Hsub & ->). apply auth_cycle_transport_calls in Hsub.
    cbn [transport_calls auth_cycles]. rewrite transport_calls_nested. simpl.
    split; [lia|done].
  - intros ->. simpl. split; [lia|done].
Qed.


(** C9: a call of [auth_request] or of [request] leaves every attribute
    of the session as it was. *)
Theorem session_state_unchanged :
  (∀ method url args expected max_tries delay_unexpected log kwargs (st : state),
     self (auth_request method url args expected max_tries delay_unexpected
             log kwargs st).2 = self st)
  ∧ (∀ method url args expected max_tries delay_unexpected log kwargs (st : state),
     self (request method url args expected max_tries delay_unexpected
             log kwargs st).2 = self st).
Proof.
  split; intros method url args expected max_tries delay_unexpected log kwargs st.
  - destruct (auth_request_run method url args expected max_tries delay_unexpected
                log kwargs st) as (w' & T & tries & resp & broke & -> & _).
    reflexivity.
  - destruct (request_run method url args expected max_tries delay_unexpected
                log kwargs st) as (w' & T & tries & resp & broke & -> & _).
    reflexivity.
Qed.


(** After a rejected response that is neither 401 nor 429, [request]
    sleeps for the fixed delay. *)
Lemma react_request_other (s : AutoAuthSession.t) (delay : float) r R :
  Response.status_code r ≠ Some 401 → Response.status_code r ≠ Some 429 →
  react_request s delay r R → R = [ESleep delay].
Proof.
  intros H401 H429. unfold_reactions.
  rewrite !bool_decide_eq_false_2 by done. done.
Qed.


(** After each rejected response come the events of the reaction to it,
    and then the next attempt or the warning. *)
Lemma retry_trace_after_rejected method url args kwargs expected sent react
    lg ran_out tries_msg log rng tries0 resp0 T tries resp broke :
  (∀ r R, react r R →
          responses R = [] ∧ sent_kwargs R = [] ∧ warnings R = [] ∧ infos R = []) →
  retry_trace method url args kwargs expected sent react rng tries0 resp0 T
    (tries, resp, broke) →
  after_each
    (λ r rest,
       expected r = false →
       ∃ R rest', rest = R ++ rest' ∧ react r R
                  ∧ next_attempt_or_warning method url args kwargs rest')
    (T ++ finish_events lg ran_out tries_msg log tries resp broke).
Proof.
  intros Hquiet HT.
  apply (retry_trace_after_each method url args kwargs expected sent react Hquiet
           (λ r rest,
              expected r = false →
              ∃ R rest', rest = R ++ rest' ∧ react r R
                         ∧ next_attempt_or_warning method url args kwargs rest')
           (λ res, finish_events lg ran_out tries_msg log res.1.1 res.1.2 res.2)
           rng tries0 resp0 T (tries, resp, broke)); [| | |exact HT].
  - intros res. apply finish_events_responses.
  - intros i r _ He He'. congruence.
  - intros r R rng' i T' res' _ _ HR HT' _.
    exists R, (T' ++ finish_events lg ran_out tries_msg log res'.1.1 res'.1.2 res'.2).
    split; [done|]. split; [done|].
    destruct (retry_trace_head _ _ _ _ _ _ _ _ _ _ _ _ HT')
      as [[-> Hb]|(r2 & T'' & ->)].
    + right. rewrite Hb. unfold finish_events. simpl. eauto.
    + left. simpl. eauto.
Qed.

Lemma auth_request_after_rejected method url args expected max_tries
    delay_unexpected log kwargs (st : state) :
  let s := self st in
  let method' := default (AutoAuthSession.method s) method in
  let url' := default (AutoAuthSession.url s) url in
  let kwargs' := dict_merge (AutoAuthSession.kwargs s) kwargs in
  let expected' := default (AutoAuthSession.auth_expected s) expected in
  let delay := resolve_delay (AutoAuthSession.auth_delay_unexpected s) delay_unexpected in
  ∃ w' T resp,
    auth_request method url args expected max_tries delay_unexpected log kwargs st
    = (Ret resp, extend st w' T)
    ∧ after_each
        (λ r rest,
           expected' r = false →
           ∃ R rest', rest = R ++ rest' ∧ react_auth delay r R
                      ∧ next_attempt_or_warning method' url' args kwargs' rest') T.
Proof.
  intros s method' url' kwargs' expected' delay.
  destruct (auth_request_run method url args expected max_tries delay_unexpected
              log kwargs st) as (w' & T & tries & resp & broke & Hrun & HT).
  cbv zeta in Hrun, HT.
  eexists w', _, resp. split; [exact Hrun|].
  eapply retry_trace_after_rejected; [apply react_auth_quiet|exact HT].
Qed.

Lemma request_after_rejected method url args expected max_tries
    delay_unexpected log kwargs (st : state) :
  let s := self st in
  let expected' := default (AutoAuthSession.expected s) expected in
  let delay := resolve_delay (AutoAuthSession.delay_unexpected s) delay_unexpected in
  ∃ w' T resp,
    request method url args expected max_tries delay_unexpected log kwargs st
    = (Ret resp, extend st w' T)
    ∧ after_each
        (λ r rest,
           expected' r = false →
           ∃ R rest', rest = R ++ rest' ∧ react_request s delay r R
                      ∧ next_attempt_or_warning method url args kwargs rest') T.
Proof.
  intros s expected' delay.
  destruct (request_run method url args expected max_tries delay_unexpected
              log kwargs st) as (w' & T & tries & resp & broke & Hrun & HT).
  cbv zeta in Hrun, HT.
  eexists w', _, resp. split; [exact Hrun|].
  eapply retry_trace_after_rejected; [apply react_request_quiet|exact HT].
Qed.


Lemma retry_after_secs_fallback (resp : Response.t) (delay : float) :
  Response.headers_get resp RETRY_AFTER = None
  ∨ (∃ v, Response.headers_get resp RETRY_AFTER = Some v ∧ float_of_str v = None) →
  retry_after_secs resp delay = delay.
Proof.
  unfold_retry_after. intros [->|(v & -> & ->)]; done.
Qed.

(** After a rejected 429 response both loops sleep once, for
    [retry_after_secs]. *)
Lemma react_auth_429 (delay : float) r R :
  Response.status_code r = Some 429 →
  react_auth delay r R → R = [ESleep (retry_after_secs r delay)].
Proof. intros H429. unfold_reactions. by rewrite bool_decide_eq_true_2. Qed.

Lemma react_request_429 (s : AutoAuthSession.t) (delay : float) r R :
  Response.status_code r = Some 429 →
  react_request s delay r R → R = [ESleep (retry_after_secs r delay)].
Proof.
  intros H429. unfold_reactions.
  rewrite bool_decide_eq_false_2 by (rewrite H429; done).
  by rewrite bool_decide_eq_true_2.
Qed.




End Claims.

(** ** More on the traces of a retry loop *)

Lemma sent_requests_app (T1 T2 : list event) :
  sent_requests (T1 ++ T2) = sent_requests T1 ++ sent_requests T2.
Proof. induction T1 as [|[] T1 IH]; simpl; by rewrite ?IH. Qed.

Lemma sent_requests_no_send (T : list event) :
  responses T = [] → sent_requests T = [].
Proof. induction T as [|[] T IH]; simpl; intros HT; try done; by apply IH. Qed.

Section MoreRetryTraces.

Context (method url : string) (args : list value) (kwargs : gmap string value).
Context (expected : Response.t → bool).
Context (sent : Response.t → Prop).
Context (react : Response.t → list event → Prop).

Hypothesis react_quiet : ∀ r R,
  react r R → responses R = [] ∧ sent_kwargs R = [] ∧ warnings R = [] ∧ infos R = [].

Local Abbreviation loop_trace :=
  (retry_trace method url args kwargs expected sent react).

(** The final [resp] is the last response obtained, or the initial value
    when there was no attempt. *)
Lemma retry_trace_last_response rng tries resp T res :
  loop_trace rng tries resp T res → res.1.2 = List.last (responses T) resp.
Proof.
  induction 1 as [| |i rng tries resp r R T res Hs He HR HT IH]; simpl; try done.
  rewrite responses_app. destruct (react_quiet _ _ HR) as (-> & _). simpl.
  rewrite IH. destruct (responses T); [done|]. apply last_cons_default.
Qed.

(** The loop is left by [break] exactly when the final [resp] is accepted. *)
Lemma retry_trace_broke_iff rng tries resp T res :
  loop_trace rng tries resp T res →
  rng ≠ [] ∨ expected resp = false →
  expected res.1.2 = res.2.
Proof.
  induction 1 as [| |i rng tries resp r R T res Hs He HR HT IH]; simpl.
  - by intros [?|?].
  - done.
  - intros _. apply IH. by right.
Qed.

Lemma retry_trace_last_sent rng tries resp T res :
  loop_trace rng tries resp T res → rng ≠ [] ∨ sent resp → sent res.1.2.
Proof.
  induction 1 as [| |i rng tries resp r R T res Hs He HR HT IH]; simpl.
  - by intros [?|?].
  - done.
  - intros _. apply IH. by right.
Qed.

(** Over a range that counts up from [tries + 1], the final [tries] is the
    number of attempts made. *)
Lemma retry_trace_tries rng tries resp T res :
  loop_trace rng tries resp T res →
  (∀ (k : nat) i, rng !! k = Some i → i = tries + 1 + Z.of_nat k) →
  res.1.1 = tries + Z.of_nat (attempts T).
Proof.
  unfold attempts.
  induction 1 as [| |i rng tries resp r R T res Hs He HR HT IH]; simpl; intros Hrng.
  - lia.
  - specialize (Hrng 0%nat i eq_refl). lia.
  - rewrite responses_app, length_app.
    destruct (react_quiet _ _ HR) as (-> & _). simpl.
    pose proof (Hrng 0%nat i eq_refl) as Hi.
    rewrite IH; [lia|].
    intros k j Hk. specialize (Hrng (S k) j Hk). lia.
Qed.

(** One sleep for each rejected attempt. *)
Lemma retry_trace_sleeps_length rng tries resp T res :
  (∀ r R, react r R → length (sleeps R) = 1%nat) →
  loop_trace rng tries resp T res →
  (length (sleeps T) + (if res.2 then 1 else 0) = attempts T)%nat.
Proof.
  intros Hone. unfold attempts.
  induction 1 as [| |i rng tries resp r R T res Hs He HR HT IH]; simpl; try done.
  rewrite sleeps_app, responses_app, !length_app.
  destruct (react_quiet _ _ HR) as (-> & _). rewrite (Hone _ _ HR). simpl. lia.
Qed.

Lemma retry_trace_sleeps_Forall (Q : float → Prop) rng tries resp T res :
  (∀ r R, react r R → Forall Q (sleeps R)) →
  loop_trace rng tries resp T res → Forall Q (sleeps T).
Proof.
  intros HQ.
  induction 1 as [| |i rng tries resp r R T res Hs He HR HT IH]; simpl;
    try by constructor.
  rewrite sleeps_app. apply Forall_app. split; [by eapply HQ|done].
Qed.

Lemma retry_trace_cycles_Forall (Q : list event → Prop) rng tries resp T res :
  (∀ r R, react r R → Forall Q (auth_cycles R)) →
  loop_trace rng tries resp T res → Forall Q (auth_cycles T).
Proof.
  intros HQ.
  induction 1 as [| |i rng tries resp r R T res Hs He HR HT IH]; simpl;
    try by constructor.
  rewrite auth_cycles_app. apply Forall_app. split; [by eapply HQ|done].
Qed.

(** One nested cycle for each rejected response that [c] selects. *)
Lemma retry_trace_cycles_length (c : Response.t → bool) rng tries resp T res :
  (∀ r R, react r R → length (auth_cycles R) = if c r then 1%nat else 0%nat) →
  loop_trace rng tries resp T res →
  length (auth_cycles T)
  = length (List.filter (λ r, negb (expected r) && c r) (responses T)).
Proof.
  intros Hc.
  induction 1 as [|i rng tries resp r Hs He|i rng tries resp r R T res Hs He HR HT IH];
    simpl; try done.
  - by rewrite He.
  - rewrite auth_cycles_app, responses_app, length_app, He, IH, (Hc _ _ HR).
    destruct (react_quiet _ _ HR) as (-> & _). simpl.
    by destruct (c r).
Qed.

(** Every attempt passes the same method, url and arguments. *)
Lemma retry_trace_sent_requests rng tries resp T res :
  loop_trace rng tries resp T res →
  sent_requests T = replicate (attempts T) (method, url, args, kwargs).
Proof.
  unfold attempts.
  induction 1 as [| |i rng tries resp r R T res Hs He HR HT IH]; simpl; try done.
  rewrite sent_requests_app, responses_app, length_app.
  destruct (react_quiet _ _ HR) as (HR0 & _).
  rewrite (sent_requests_no_send _ HR0), HR0. simpl. by rewrite IH.
Qed.

End MoreRetryTraces.

(** ** Further properties of the two loops *)

Lemma finish_events_infos lg ran_out tries_msg log tries resp broke :
  infos (finish_events lg ran_out tries_msg log tries resp broke)
  = match log with
    | Some log => [tries_msg tries log]
    | None => []
    end.
Proof. unfold finish_events. by destruct broke, log. Qed.

Lemma finish_events_sent_requests lg ran_out tries_msg log tries resp broke :
  sent_requests (finish_events lg ran_out tries_msg log tries resp broke) = [].
Proof. unfold finish_events. by destruct broke, log. Qed.

Lemma range_counts_up (m : Z) (k : nat) (i : Z) :
  range 1 (1 + m) !! k = Some i → i = 0 + 1 + Z.of_nat k.
Proof. intros H. apply range_lookup in H. lia. Qed.

Section Extras.

Context {World : Type}.
Context (send : World → string → string → list value → gmap string value
                → Response.t * World).
Context (RETRY_AFTER : string).
Context (float_of_str : string → option float).
Context (str_args : list value → string).
Context (str_kwargs : gmap string value → string).
Context (str_timedelta : Z → string).
Context (str_headers : gmap string string → string).

Local Abbreviation state := (@state World).
Local Abbreviation auth_request :=
  (auth_request send RETRY_AFTER float_of_str str_args str_kwargs
     str_timedelta str_headers).
Local Abbreviation request :=
  (request send RETRY_AFTER float_of_str str_args str_kwargs
     str_timedelta str_headers).
Local Abbreviation ran_out_text :=
  (ran_out_text str_args str_kwargs str_timedelta str_headers).
Local Abbreviation retry_after_secs := (retry_after_secs RETRY_AFTER float_of_str).
Local Abbreviation react_auth := (react_auth RETRY_AFTER float_of_str).
Local Abbreviation react_request :=
  (react_request send RETRY_AFTER float_of_str str_args str_kwargs
     str_timedelta str_headers).
Local Abbreviation auth_cycle :=
  (auth_cycle send RETRY_AFTER float_of_str str_args str_kwargs
     str_timedelta str_headers).
Local Abbreviation auth_request_run :=
  (auth_request_run send RETRY_AFTER float_of_str str_args str_kwargs
     str_timedelta str_headers).
Local Abbreviation request_run :=
  (request_run send RETRY_AFTER float_of_str str_args str_kwargs
     str_timedelta str_headers).
Local Abbreviation react_auth_quiet := (react_auth_quiet RETRY_AFTER float_of_str).
Local Abbreviation react_request_quiet :=
  (react_request_quiet send RETRY_AFTER float_of_str str_args str_kwargs
     str_timedelta str_headers).
Local Abbreviation auth_request_after_rejected :=
  (auth_request_after_rejected send RETRY_AFTER float_of_str str_args str_kwargs
     str_timedelta str_headers).
Local Abbreviation request_after_rejected :=
  (request_after_rejected send RETRY_AFTER float_of_str str_args str_kwargs
     str_timedelta str_headers).
Local Abbreviation react_auth_429 := (react_auth_429 RETRY_AFTER float_of_str).
Local Abbreviation react_request_429 :=
  (react_request_429 send RETRY_AFTER float_of_str str_args str_kwargs
     str_timedelta str_headers).

Lemma resolve_delay_nonneg (dflt : float) (delay_unexpected : option float) :
  SFleb float_zero (resolve_delay dflt delay_unexpected) = true.
Proof. apply float_max_zero_nonneg. Qed.

Lemma retry_after_secs_nonneg (resp : Response.t) (delay : float) :
  SFleb float_zero delay = true →
  SFleb float_zero (retry_after_secs resp delay) = true.
Proof.
  intros Hd. unfold_retry_after.
  destruct (Response.headers_get resp RETRY_AFTER) as [v|]; [|done].
  destruct (float_of_str v) as [N|]; [|done].
  by destruct (SFleb float_zero N) eqn:HN.
Qed.

Lemma react_auth_sleeps (delay : float) r R :
  SFleb float_zero delay = true →
  react_auth delay r R →
  length (sleeps R) = 1%nat
  ∧ Forall (λ secs, SFleb float_zero secs = true) (sleeps R)
  ∧ auth_cycles R = [].
Proof.
  intros Hd ->. simpl. split; [done|]. split; [|done].
  apply Forall_singleton.
  case_bool_decide; [by apply retry_after_secs_nonneg|done].
Qed.

Lemma react_auth_not_429 (delay : float) r R :
  Response.status_code r ≠ Some 429 →
  react_auth delay r R → R = [ESleep delay].
Proof. intros H429. unfold_reactions. by rewrite bool_decide_eq_false_2. Qed.

(** The trace of a call [self.auth_request()] is the trace of its loop
    followed by the events after the loop. *)
Lemma auth_cycle_inv (s : AutoAuthSession.t) (sub : list event) :
  auth_cycle s sub →
  ∃ T tries resp broke,
    sub = T ++ finish_events (AutoAuthSession.logger s)
                 (λ t r, ran_out_text s "auth_request" t (AutoAuthSession.method s)
                           (AutoAuthSession.url s) []
                           (dict_merge (AutoAuthSession.kwargs s) ∅) r)
                 (tries_text s "auth_request") None tries resp broke
    ∧ retry_trace (AutoAuthSession.method s) (AutoAuthSession.url s) []
        (dict_merge (AutoAuthSession.kwargs s) ∅) (AutoAuthSession.auth_expected s)
        (from_transport send (AutoAuthSession.method s) (AutoAuthSession.url s) []
           (dict_merge (AutoAuthSession.kwargs s) ∅))
        (react_auth (resolve_delay (AutoAuthSession.auth_delay_unexpected s) None))
        (range 1 (1 + resolve_max_tries (AutoAuthSession.auth_max_tries s) None))
        0 Response.new T (tries, resp, broke).
Proof.
  intros (w & w' & resp & Hrun).
  destruct (auth_request_run None None [] None None None None ∅ (mkState s w []))
    as (w2 & T & tries & resp2 & broke & Hrun2 & HT).
  simpl in Hrun2, HT. rewrite Hrun in Hrun2.
  injection Hrun2 as _ _ ->. by exists T, tries, resp2, broke.
Qed.

Lemma react_request_sleeps (s : AutoAuthSession.t) (delay : float) r R :
  SFleb float_zero delay = true →
  react_request s delay r R →
  length (sleeps R) = 1%nat
  ∧ Forall (λ secs, SFleb float_zero secs = true) (sleeps R)
  ∧ length (auth_cycles R) = (if unauthorized r then 1 else 0)%nat
  ∧ Forall (auth_cycle s) (auth_cycles R).
Proof.
  intros Hd. unfold react_request, unauthorized. case_bool_decide.
  - intros (sub & Hsub & ->). simpl.
    split; [done|]. split; [by apply Forall_singleton|]. split; [done|].
    by apply Forall_singleton.
  - intros HR. destruct (react_auth_sleeps _ _ _ Hd HR) as (? & ? & ->).
    repeat split; done.
Qed.

Ltac run_auth_request method url args expected max_tries delay_unexpected log kwargs st :=
  let w' := fresh "w'" in
  let T := fresh "T" in
  let tries := fresh "tries" in
  let resp := fresh "resp" in
  let broke := fresh "broke" in
  let Hrun := fresh "Hrun" in
  let HT := fresh "HT" in
  destruct (auth_request_run method url args expected max_tries delay_unexpected
              log kwargs st) as (w' & T & tries & resp & broke & Hrun & HT);
  cbv zeta in Hrun, HT;
  eexists w', _, resp; split; [exact Hrun|].

Ltac run_request method url args expected max_tries delay_unexpected log kwargs st :=
  let w' := fresh "w'" in
  let T := fresh "T" in
  let tries := fresh "tries" in
  let resp := fresh "resp" in
  let broke := fresh "broke" in
  let Hrun := fresh "Hrun" in
  let HT := fresh "HT" in
  destruct (request_run method url args expected max_tries delay_unexpected
              log kwargs st) as (w' & T & tries & resp & broke & Hrun & HT);
  cbv zeta in Hrun, HT;
  eexists w', _, resp; split; [exact Hrun|].









(** X14: with a predicate that accepts every response, as the default
    [lambda _: True] of the constructor does, [request] makes exactly one
    transport call and returns its response whatever the status is: it runs
    no nested [auth_request], does not sleep and logs no warning. *)
Theorem accepting_predicate_never_retries method url args expected max_tries
    delay_unexpected log kwargs (st : state) :
  let s := self st in
  let expected' := default (AutoAuthSession.expected s) expected in
  (∀ r, expected' r = true) →
  ∃ w' resp,
    request method url args expected max_tries delay_unexpected log kwargs st
    = (Ret resp,
       extend st w'
         (ESend method url args kwargs resp
          :: match log with
             | Some tag => [EInfo (AutoAuthSession.logger s)
                              (tries_text s "request" 1 tag)]
             | None => []
             end)).
Proof.
  intros s expected' Hacc.
  destruct (request_run method url args expected max_tries delay_unexpected
              log kwargs st) as (w' & T & tries & resp & broke & Hrun & HT).
  cbv zeta in Hrun, HT. fold s expected' in Hrun, HT.
  pose proof (range_nonempty _ (resolve_max_tries_pos
                (AutoAuthSession.max_tries s) max_tries)) as Hne.
  destruct (range 1 (1 + resolve_max_tries (AutoAuthSession.max_tries s) max_tries))
    as [|i rng] eqn:Hrng; [done|].
  pose proof (range_counts_up (resolve_max_tries (AutoAuthSession.max_tries s) max_tries)
                0%nat i) as Hi.
  rewrite Hrng in Hi.
  specialize (Hi eq_refl). simpl in Hi. subst i.
  inversion HT as [|? ? ? ? r Hs He|? ? ? ? r R T' ? Hs He HR HT']; subst.
  - exists w', resp. rewrite Hrun. unfold finish_events. by destruct log.
  - rewrite Hacc in He. done.
Qed.

End Extras.

(** X12: the merge [{**a, **b}] of [auth_request] loses no key: the keys of
    the merged keyword arguments are those of the session together with
    those of the call, a key that only the session has keeps the value of the
    session, and a merge with no keyword argument on one side gives the
    other side. *)
Theorem dict_merge_keys (session_kwargs call_kwargs : gmap string value) :
  dom (dict_merge session_kwargs call_kwargs) = dom session_kwargs ∪ dom call_kwargs
  ∧ (∀ key, call_kwargs !! key = None →
            dict_merge session_kwargs call_kwargs !! key = session_kwargs !! key)
  ∧ dict_merge session_kwargs ∅ = session_kwargs
  ∧ dict_merge ∅ call_kwargs = call_kwargs.
Proof.
  unfold dict_merge. repeat split.
  - rewrite dom_union_L. apply (comm_L (∪)).
  - intros key Hk. by rewrite lookup_union_r.
  - by rewrite (left_id_L ∅ (∪)).
  - by rewrite (right_id_L ∅ (∪)).
Qed.

(** ** What [auth_request] reads of the session *)

Section Frames.

Context {World : Type}.
Context (send : World → string → string → list value → gmap string value
                → Response.t * World).
Context (RETRY_AFTER : string).
Context (float_of_str : string → option float).
Context (str_args : list value → string).
Context (str_kwargs : gmap string value → string).
Context (str_timedelta : Z → string).
Context (str_headers : gmap string string → string).

Local Abbreviation state := (@state World).
Local Abbreviation M := (@M World).

(** [m] does the same from two states that differ in the attributes of the
    session only, provided the two sessions have the same logger. *)
Local Abbreviation same_run m :=
  (∀ (s1 s2 : AutoAuthSession.t) (w : World) (t : list event),
     AutoAuthSession.logger s1 = AutoAuthSession.logger s2 →
     (m (mkState s1 w t)).1 = (m (mkState s2 w t)).1
     ∧ world (m (mkState s1 w t)).2 = world (m (mkState s2 w t)).2
     ∧ trace (m (mkState s1 w t)).2 = trace (m (mkState s2 w t)).2
     ∧ self (m (mkState s1 w t)).2 = s1
     ∧ self (m (mkState s2 w t)).2 = s2).

Lemma bind_same_run {A B} (m : M A) (k : A → M B) :
  same_run m → (∀ a, same_run (k a)) → same_run (bind m k).
Proof.
  intros Hm Hk s1 s2 w t Hl. unfold bind.
  destruct (Hm s1 s2 w t Hl) as (Ho & Hw & Ht & Hs1 & Hs2).
  destruct (m (mkState s1 w t)) as [o1 [s1' w1 t1]].
  destruct (m (mkState s2 w t)) as [o2 [s2' w2 t2]].
  simpl in *. subst.
  destruct o2 as [a|e]; [by apply Hk|done].
Qed.

Lemma ret_same_run {A} (a : A) : same_run (ret a : M A).
Proof. done. Qed.

Lemma emit_same_run (e : event) : same_run (emit e : M unit).
Proof. done. Qed.

Lemma sleep_same_run (secs : float) : same_run (sleep secs : M unit).
Proof. intros s1 s2 w t Hl. unfold sleep. by destruct (SFleb float_zero secs). Qed.

Lemma super_request_same_run method url args kwargs :
  same_run (super_request send method url args kwargs).
Proof.
  intros s1 s2 w t Hl. unfold super_request. simpl.
  by destruct (send w method url args kwargs).
Qed.

Lemma sleep_retry_after_same_run resp delay :
  same_run (sleep_retry_after RETRY_AFTER float_of_str resp delay : M unit).
Proof.
  intros s1 s2 w t Hl. unfold sleep_retry_after, try_except_ValueError.
  destruct (Response.headers_get resp RETRY_AFTER) as [v|].
  - unfold bind, float_. destruct (float_of_str v) as [f|]; simpl.
    + unfold sleep. destruct (SFleb float_zero f); simpl; [done|].
      by destruct (SFleb float_zero delay).
    + unfold sleep. by destruct (SFleb float_zero delay).
  - unfold sleep. destruct (SFleb float_zero delay); simpl; [done|].
    by destruct (SFleb float_zero delay).
Qed.

Lemma auth_request_loop_same_run method url args kwargs expected delay rng tries resp :
  same_run (auth_request_loop send RETRY_AFTER float_of_str method url args kwargs
              expected delay rng tries resp).
Proof.
  revert tries resp. induction rng as [|i rng IH]; intros tries resp.
  - apply ret_same_run.
  - simpl. apply bind_same_run; [apply super_request_same_run|].
    intros r. destruct (expected r); [apply ret_same_run|].
    apply bind_same_run; [|intros _; apply IH].
    case_bool_decide; [apply sleep_retry_after_same_run|apply sleep_same_run].
Qed.

Lemma bind_get_self {A} (k : AutoAuthSession.t → M A) (st : state) :
  bind get_self k st = k (self st) st.
Proof. reflexivity. Qed.

(** X13: [auth_request] reads the authentication defaults of the session
    only: on two sessions with the same method, url, keyword arguments,
    authentication predicate, [auth_max_tries], [auth_delay_unexpected] and
    logger, whatever their ordinary [expected], [max_tries] and
    [delay_unexpected] are, the same call from the same transport state
    returns the same response, leaves the transport in the same state and
    has the same trace. *)
Theorem auth_request_ignores_ordinary_defaults (s1 s2 : AutoAuthSession.t)
    method url args expected max_tries delay_unexpected log kwargs
    (w : World) (t : list event) :
  AutoAuthSession.method s1 = AutoAuthSession.method s2 →
  AutoAuthSession.url s1 = AutoAuthSession.url s2 →
  AutoAuthSession.kwargs s1 = AutoAuthSession.kwargs s2 →
  AutoAuthSession.auth_expected s1 = AutoAuthSession.auth_expected s2 →
  AutoAuthSession.auth_max_tries s1 = AutoAuthSession.auth_max_tries s2 →
  AutoAuthSession.auth_delay_unexpected s1 = AutoAuthSession.auth_delay_unexpected s2 →
  AutoAuthSession.logger s1 = AutoAuthSession.logger s2 →
  let run s :=
    auth_request send RETRY_AFTER float_of_str str_args str_kwargs str_timedelta
      str_headers method url args expected max_tries delay_unexpected log kwargs
      (mkState s w t) in
  (run s1).1 = (run s2).1
  ∧ world (run s1).2 = world (run s2).2
  ∧ trace (run s1).2 = trace (run s2).2.
Proof.
  intros Hm Hu Hk He Hmt Hd Hl run. subst run. cbv beta.
  unfold_auth_request. rewrite !bind_get_self. cbn [self].
  rewrite Hm, Hu, Hk, He, Hmt, Hd.
  match goal with
  | |- (?m _).1 = _ ∧ _ => assert (same_run m) as Hsame
  end.
  { apply bind_same_run; [apply auth_request_loop_same_run|].
    intros [[tries resp] broke].
    apply bind_same_run.
    - destruct broke; [apply ret_same_run|].
      intros s1' s2' w' t' Hl'. unfold bind, warning, emit. simpl.
      by rewrite Hl'.
    - intros _. apply bind_same_run; [|intros _; apply ret_same_run].
      destruct log as [tag|]; [|apply ret_same_run].
      intros s1' s2' w' t' Hl'. unfold bind, info, emit. simpl.
      by rewrite Hl'. }
  destruct (Hsame s1 s2 w t Hl) as (Ho & Hw & Ht & _). done.
Qed.

End Frames.

(** ** Running the methods with the limit of time.sleep *)

Section LimitedRuns.

Context {World : Type}.
Context (send : World → string → string → list value → gmap string value
                → Response.t * World).
Context (RETRY_AFTER : string).
Context (float_of_str : string → option float).
Context (str_args : list value → string).
Context (str_kwargs : gmap string value → string).
Context (str_timedelta : Z → string).
Context (str_headers : gmap string string → string).
Context (too_large : float → bool).

Local Abbreviation state := (@state World).
Local Abbreviation lim_sleep := (@Limited.sleep World too_large).
Local Abbreviation lim_sleep_retry_after :=
  (@Limited.sleep_retry_after World RETRY_AFTER float_of_str too_large).
Local Abbreviation lim_auth_request_loop :=
  (Limited.auth_request_loop send RETRY_AFTER float_of_str too_large).
Local Abbreviation lim_request_loop :=
  (Limited.request_loop send RETRY_AFTER float_of_str str_args str_kwargs
     str_timedelta str_headers too_large).
Local Abbreviation lim_auth_request :=
  (Limited.auth_request send RETRY_AFTER float_of_str str_args str_kwargs
     str_timedelta str_headers too_large).
Local Abbreviation lim_request :=
  (Limited.request send RETRY_AFTER float_of_str str_args str_kwargs
     str_timedelta str_headers too_large).
Local Abbreviation ran_out_text :=
  (ran_out_text str_args str_kwargs str_timedelta str_headers).
Local Abbreviation lim_fixed_secs := (Limited.fixed_secs too_large).
Local Abbreviation lim_retry_after_secs :=
  (Limited.retry_after_secs RETRY_AFTER float_of_str too_large).
Local Abbreviation lim_auth_secs :=
  (Limited.auth_secs RETRY_AFTER float_of_str too_large).
Local Abbreviation lim_react_auth :=
  (Limited.react_auth RETRY_AFTER float_of_str too_large).
Local Abbreviation lim_overflow_auth :=
  (Limited.overflow_auth RETRY_AFTER float_of_str too_large).
Local Abbreviation lim_react_request :=
  (Limited.react_request send RETRY_AFTER float_of_str str_args str_kwargs
     str_timedelta str_headers too_large).
Local Abbreviation lim_overflow_request :=
  (Limited.overflow_request send RETRY_AFTER float_of_str str_args str_kwargs
     str_timedelta str_headers too_large).
Local Abbreviation lim_auth_cycle :=
  (Limited.auth_cycle send RETRY_AFTER float_of_str str_args str_kwargs
     str_timedelta str_headers too_large).
Local Abbreviation lim_auth_cycle_overflow :=
  (Limited.auth_cycle_overflow send RETRY_AFTER float_of_str str_args str_kwargs
     str_timedelta str_headers too_large).
Local Abbreviation from_transport := (from_transport send).

(** The outcome of a sleep: it returns after [secs], or it raises
    [OverflowError]. *)
Local Abbreviation slept st o :=
  (match o with
   | Some secs => (Ret tt, extend st (world st) [ESleep secs])
   | None => (Raise OverflowError, st)
   end).

Lemma limited_sleep_run (secs : float) (st : state) :
  SFleb float_zero secs = true →
  lim_sleep secs st = slept st (lim_fixed_secs secs).
Proof.
  intros H. unfold Limited.sleep, Limited.fixed_secs.
  destruct secs; try done; destruct (too_large _); try done; by rewrite H.
Qed.

Lemma limited_sleep_retry_after_run (resp : Response.t) (delay : float) (st : state) :
  SFleb float_zero delay = true →
  lim_sleep_retry_after resp delay st = slept st (lim_retry_after_secs resp delay).
Proof.
  intros Hd. unfold Limited.sleep_retry_after, Limited.retry_after_secs,
    try_except_ValueError.
  destruct (Response.headers_get resp RETRY_AFTER) as [v|].
  - unfold bind, float_. destruct (float_of_str v) as [f|].
    + unfold ret. cbv beta iota.
      destruct f as [sf|sf| |sf m e]; unfold Limited.sleep at 1; cbv beta iota;
        try (destruct (too_large _); [done|]);
        try (match goal with
             | |- context [if SFleb float_zero ?x then emit _ else _] =>
                 destruct (SFleb float_zero x); [done|]
             end);
        unfold raise; cbv beta iota; by apply limited_sleep_run.
    + unfold raise. cbv beta iota. by apply limited_sleep_run.
  - rewrite limited_sleep_run by done.
    destruct (lim_fixed_secs delay); [done|]. done.
Qed.

(** The outcome of a loop. *)
Local Abbreviation loop_outcome res :=
  (match res with
   | Some x => Ret x
   | None => Raise OverflowError
   end).

(** The loop of [Limited.auth_request] returns or raises [OverflowError],
    and its trace is a [limited_trace]. *)
Lemma limited_auth_request_loop_run (method url : string) (args : list value)
    (kwargs : gmap string value) (expected : Response.t → bool) (delay : float)
    (rng : list Z) (tries : Z) (resp : Response.t) (st : state) :
  SFleb float_zero delay = true →
  ∃ w' T res,
    lim_auth_request_loop method url args kwargs expected delay rng tries resp st
    = (loop_outcome res, extend st w' T)
    ∧ limited_trace method url args kwargs expected
        (from_transport method url args kwargs)
        (lim_react_auth delay) (lim_overflow_auth delay)
        rng tries resp T res.
Proof.
  intros Hd. revert tries resp st.
  induction rng as [|i rng IH]; intros tries resp st.
  - exists (world st), [], (Some (tries, resp, false)). split; [|constructor].
    unfold extend. simpl. unfold ret. rewrite app_nil_r. by destruct st.
  - simpl. unfold bind at 1. rewrite super_request_run.
    set (r := (send (world st) method url args kwargs).1).
    set (w1 := (send (world st) method url args kwargs).2).
    set (st1 := extend st w1 [ESend method url args kwargs r]).
    destruct (expected r) eqn:He.
    + exists w1, [ESend method url args kwargs r], (Some (i, r, true)).
      split; [done|]. constructor; [by exists (world st)|done].
    + unfold bind at 1.
      assert ((if bool_decide (Response.status_code r = Some 429)
               then lim_sleep_retry_after r delay
               else lim_sleep delay) st1
              = slept st1 (lim_auth_secs delay r)) as ->.
      { unfold Limited.auth_secs. case_bool_decide.
        - by rewrite limited_sleep_retry_after_run.
        - by rewrite limited_sleep_run. }
      destruct (lim_auth_secs delay r) as [secs|] eqn:Hsecs; cbv beta iota.
      * subst st1. rewrite extend_extend.
        change (world (extend st w1 [ESend method url args kwargs r])) with w1.
        destruct (IH i r (extend st w1 ([ESend method url args kwargs r] ++ [ESleep secs])))
          as (w' & T & res & Hrun & HT).
        exists w', (ESend method url args kwargs r :: [ESleep secs] ++ T), res.
        split.
        -- rewrite Hrun, extend_extend. done.
        -- apply limited_again; [by exists (world st)|done| |done].
           by exists secs.
      * exists w1, [ESend method url args kwargs r], None.
        split; [done|].
        apply limited_overflow; [by exists (world st)|done|done].
Qed.

(** What a method returns or raises after its loop. *)
Local Abbreviation call_outcome res :=
  (match res with
   | Some (_, resp, _) => Ret resp
   | None => Raise OverflowError
   end).

Lemma fixed_secs_Some (delay secs : float) :
  lim_fixed_secs delay = Some secs → secs = delay ∧ too_large delay = false.
Proof. unfold Limited.fixed_secs. destruct (too_large delay); naive_solver. Qed.

Lemma fixed_secs_None (delay : float) :
  lim_fixed_secs delay = None → too_large delay = true.
Proof. unfold Limited.fixed_secs. by destruct (too_large delay). Qed.

(** [Limited.auth_request] returns or raises [OverflowError]; its trace is a
    [limited_trace] over [range(1, 1 + max_tries)], followed by the events
    after the loop when the loop is not left by the error. *)
Lemma limited_auth_request_run (method url : option string) (args : list value)
    (expected : option (Response.t → bool)) (max_tries : option Z)
    (delay_unexpected : option float) (log : option string)
    (kwargs : gmap string value) (st : state) :
  let s := self st in
  let method' := default (AutoAuthSession.method s) method in
  let url' := default (AutoAuthSession.url s) url in
  let kwargs' := dict_merge (AutoAuthSession.kwargs s) kwargs in
  let expected' := default (AutoAuthSession.auth_expected s) expected in
  let max_tries' := resolve_max_tries (AutoAuthSession.auth_max_tries s) max_tries in
  let delay := resolve_delay (AutoAuthSession.auth_delay_unexpected s) delay_unexpected in
  ∃ w' T res,
    lim_auth_request method url args expected max_tries delay_unexpected log kwargs st
    = (call_outcome res,
       extend st w'
         (T ++ finish_events_opt (AutoAuthSession.logger s)
                 (λ t r, ran_out_text s "auth_request" t method' url' args kwargs' r)
                 (tries_text s "auth_request") log res))
    ∧ limited_trace method' url' args kwargs' expected'
        (from_transport method' url' args kwargs')
        (lim_react_auth delay) (lim_overflow_auth delay)
        (range 1 (1 + max_tries')) 0 Response.new T res.
Proof.
  intros s method' url' kwargs' expected' max_tries' delay.
  destruct (limited_auth_request_loop_run method' url' args kwargs' expected' delay
              (range 1 (1 + max_tries')) 0 Response.new st
              (float_max_zero_nonneg _))
    as (w' & T & res & Hrun & HT).
  exists w', T, res. split; [|done].
  unfold Limited.auth_request, get_self. unfold bind at 1.
  fold s method' url' kwargs' expected'.
  change (Z.max 1 (default (AutoAuthSession.auth_max_tries s) max_tries))
    with max_tries'.
  change (float_max float_zero
            (default (AutoAuthSession.auth_delay_unexpected s) delay_unexpected))
    with delay.
  unfold bind at 1. rewrite Hrun.
  destruct res as [[[tries resp] broke]|]; simpl.
  - unfold finish_events, bind, ret, warning, info, emit, get_self, extend.
    destruct broke, log; simpl; rewrite <- ?app_assoc, ?app_nil_r; reflexivity.
  - by rewrite app_nil_r.
Qed.

(** The call [self.auth_request()] in [Limited.request] adds one
    [EAuthRequest] event, and returns or raises [OverflowError]. *)
Lemma limited_nested_auth_request_run (st : state) :
  ∃ w' sub,
    (∃ resp,
       nested (lim_auth_request None None [] None None None None ∅) st
       = (Ret resp, extend st w' [EAuthRequest sub])
       ∧ lim_auth_cycle (self st) sub)
    ∨ (nested (lim_auth_request None None [] None None None None ∅) st
       = (Raise OverflowError, extend st w' [EAuthRequest sub])
       ∧ lim_auth_cycle_overflow (self st) sub).
Proof.
  destruct (limited_auth_request_run None None [] None None None None ∅
              (mkState (self st) (world st) []))
    as (w' & T & res & Hrun & _).
  simpl in Hrun. unfold extend in Hrun. simpl in Hrun.
  eexists w', _. destruct res as [[[tries resp] broke]|].
  - left. exists resp. split.
    + unfold nested. rewrite Hrun. reflexivity.
    + unfold Limited.auth_cycle. eauto.
  - right. split.
    + unfold nested. rewrite Hrun. reflexivity.
    + unfold Limited.auth_cycle_overflow. eauto.
Qed.

(** The loop of [Limited.request] returns or raises [OverflowError], and its
    trace is a [limited_trace]. *)
Lemma limited_request_loop_run (method url : string) (args : list value)
    (kwargs : gmap string value) (expected : Response.t → bool) (delay : float)
    (rng : list Z) (tries : Z) (resp : Response.t) (st : state) :
  SFleb float_zero delay = true →
  ∃ w' T res,
    lim_request_loop method url args kwargs expected delay rng tries resp st
    = (loop_outcome res, extend st w' T)
    ∧ limited_trace method url args kwargs expected
        (from_transport method url args kwargs)
        (lim_react_request (self st) delay) (lim_overflow_request (self st) delay)
        rng tries resp T res.
Proof.
  intros Hd. revert tries resp st.
  induction rng as [|i rng IH]; intros tries resp st.
  - exists (world st), [], (Some (tries, resp, false)). split; [|constructor].
    unfold extend. simpl. unfold ret. rewrite app_nil_r. by destruct st.
  - simpl. unfold bind at 1. rewrite super_request_run.
    set (r := (send (world st) method url args kwargs).1).
    set (w1 := (send (world st) method url args kwargs).2).
    set (st1 := extend st w1 [ESend method url args kwargs r]).
    destruct (expected r) eqn:He.
    + exists w1, [ESend method url args kwargs r], (Some (i, r, true)).
      split; [done|]. constructor; [by exists (world st)|done].
    + unfold bind at 1.
      assert (∃ w2 R,
        ((if bool_decide (Response.status_code r = Some 401)
          then bind (nested (lim_auth_request None None [] None None None None ∅))
                 (λ _, lim_sleep delay)
          else if bool_decide (Response.status_code r = Some 429)
               then lim_sleep_retry_after r delay
               else lim_sleep delay) st1
         = (Ret tt, extend st1 w2 R)
         ∧ lim_react_request (self st) delay r R)
        ∨ ((if bool_decide (Response.status_code r = Some 401)
            then bind (nested (lim_auth_request None None [] None None None None ∅))
                   (λ _, lim_sleep delay)
            else if bool_decide (Response.status_code r = Some 429)
                 then lim_sleep_retry_after r delay
                 else lim_sleep delay) st1
           = (Raise OverflowError, extend st1 w2 R)
           ∧ lim_overflow_request (self st) delay r R)) as (w2 & R & Hreact).
      { unfold Limited.react_request, Limited.overflow_request. case_bool_decide.
        - destruct (limited_nested_auth_request_run st1)
            as (w2 & sub & [(ra & Hn & Hc)|[Hn Hc]]).
          + unfold bind. rewrite Hn, limited_sleep_run by done.
            destruct (lim_fixed_secs delay) as [secs|] eqn:Hsecs.
            * apply fixed_secs_Some in Hsecs as [-> Hfit].
              exists w2, [EAuthRequest sub; ESleep delay]. left. split.
              -- by rewrite extend_extend.
              -- exists sub. done.
            * apply fixed_secs_None in Hsecs.
              exists w2, [EAuthRequest sub]. right. split; [done|].
              exists sub. split; [done|]. by right.
          + unfold bind. rewrite Hn.
            exists w2, [EAuthRequest sub]. right. split; [done|].
            exists sub. split; [done|]. by left.
        - assert ((if bool_decide (Response.status_code r = Some 429)
                   then lim_sleep_retry_after r delay
                   else lim_sleep delay) st1
                  = slept st1 (lim_auth_secs delay r)) as ->.
          { unfold Limited.auth_secs. case_bool_decide.
            - by rewrite limited_sleep_retry_after_run.
            - by rewrite limited_sleep_run. }
          destruct (lim_auth_secs delay r) as [secs|] eqn:Hsecs.
          + exists w1, [ESleep secs]. left. split; [done|]. by exists secs.
          + exists w1, []. right. split; [|done].
            unfold extend. simpl. by rewrite app_nil_r. }
      destruct Hreact as [[-> HR]|[-> HR]].
      * subst st1. rewrite extend_extend.
        destruct (IH i r (extend st w2 ([ESend method url args kwargs r] ++ R)))
          as (w' & T & res & Hrun & HT).
        exists w', (ESend method url args kwargs r :: R ++ T), res.
        split.
        -- rewrite Hrun, extend_extend. by rewrite <- app_assoc.
        -- apply limited_again; [by exists (world st)|done|done|done].
      * subst st1. rewrite extend_extend.
        exists w2, (ESend method url args kwargs r :: R), None.
        split; [done|].
        apply limited_overflow; [by exists (world st)|done|done].
Qed.

(** [Limited.request] returns or raises [OverflowError]; its trace is a
    [limited_trace] over [range(1, 1 + max_tries)], followed by the events
    after the loop when the loop is not left by the error. *)
Lemma limited_request_run (method url : string) (args : list value)
    (expected : option (Response.t → bool)) (max_tries : option Z)
    (delay_unexpected : option float) (log : option string)
    (kwargs : gmap string value) (st : state) :
  let s := self st in
  let expected' := default (AutoAuthSession.expected s) expected in
  let max_tries' := resolve_max_tries (AutoAuthSession.max_tries s) max_tries in
  let delay := resolve_delay (AutoAuthSession.delay_unexpected s) delay_unexpected in
  ∃ w' T res,
    lim_request method url args expected max_tries delay_unexpected log kwargs st
    = (call_outcome res,
       extend st w'
         (T ++ finish_events_opt (AutoAuthSession.logger s)
                 (λ t r, ran_out_text s "request" t method url args kwargs r)
                 (tries_text s "request") log res))
    ∧ limited_trace method url args kwargs expected'
        (from_transport method url args kwargs)
        (lim_react_request s delay) (lim_overflow_request s delay)
        (range 1 (1 + max_tries')) 0 Response.new T res.
Proof.
  intros s expected' max_tries' delay.
  destruct (limited_request_loop_run method url args kwargs expected' delay
              (range 1 (1 + max_tries')) 0 Response.new st
              (float_max_zero_nonneg _))
    as (w' & T & res & Hrun & HT).
  exists w', T, res. split; [|done].
  unfold Limited.request, get_self. unfold bind at 1.
  fold s expected'.
  change (Z.max 1 (default (AutoAuthSession.max_tries s) max_tries))
    with max_tries'.
  change (float_max float_zero
            (default (AutoAuthSession.delay_unexpected s) delay_unexpected))
    with delay.
  unfold bind at 1. rewrite Hrun.
  destruct res as [[[tries resp] broke]|]; simpl.
  - unfold finish_events, bind, ret, warning, info, emit, get_self, extend.
    destruct broke, log; simpl; rewrite <- ?app_assoc, ?app_nil_r; reflexivity.
  - by rewrite app_nil_r.
Qed.

End LimitedRuns.

(** ** The shape of the traces with the limit of time.sleep *)

Lemma finish_events_opt_responses lg ran_out tries_msg log res :
  responses (finish_events_opt lg ran_out tries_msg log res) = [].
Proof.
  destruct res as [[[tries resp] broke]|]; [apply finish_events_responses|done].
Qed.

Section LimitedTraces.

Context (method url : string) (args : list value) (kwargs : gmap string value).
Context (expected : Response.t → bool).
Context (sent : Response.t → Prop).
Context (react overflow : Response.t → list event → Prop).

Hypothesis react_quiet : ∀ r R, react r R → responses R = [].
Hypothesis overflow_quiet : ∀ r R, overflow r R → responses R = [].

Local Abbreviation loop_trace :=
  (limited_trace method url args kwargs expected sent react overflow).

Lemma limited_trace_head rng tries resp T res :
  loop_trace rng tries resp T res →
  (T = [] ∧ res = Some (tries, resp, false))
  ∨ ∃ r T', T = ESend method url args kwargs r :: T'.
Proof. destruct 1; eauto. Qed.

(** A loop is left by the error only after a rejected response for which
    the reaction overflows. *)
Lemma limited_trace_overflowed rng tries resp T :
  loop_trace rng tries resp T None →
  ∃ r R, sent r ∧ expected r = false ∧ overflow r R.
Proof.
  intros HT. remember None as res eqn:Hres.
  induction HT as [| |i rng tries resp r R T res Hs He HR HT IH
                   |i rng tries resp r R Hs He HR]; try done.
  - by apply IH.
  - by exists r, R.
Qed.

(** What holds after every accepted response, after every rejected one whose
    reaction returns, and after every rejected one whose reaction overflows,
    holds after each attempt, also with the events [F] after the loop. *)
Lemma limited_trace_after_each (P : Response.t → list event → Prop)
    (F : option (Z * Response.t * bool) → list event) rng tries resp T res :
  (∀ res, responses (F res) = []) →
  (∀ i r, sent r → expected r = true → P r (F (Some (i, r, true)))) →
  (∀ r R rng' i T' res',
     sent r → expected r = false → react r R → loop_trace rng' i r T' res' →
     P r (R ++ T' ++ F res')) →
  (∀ r R, sent r → expected r = false → overflow r R → P r (R ++ F None)) →
  loop_trace rng tries resp T res →
  after_each P (T ++ F res).
Proof.
  intros HF Hacc Hrej Hover HT.
  induction HT as [| |i rng tries resp r R T res Hs He HR HT IH
                   |i rng tries resp r R Hs He HR]; simpl.
  - by apply after_each_no_send.
  - split; [by apply Hacc|]. by apply after_each_no_send.
  - split.
    + rewrite <- app_assoc. by eapply Hrej.
    + rewrite <- app_assoc. apply after_each_app; [|done].
      by apply (react_quiet r).
  - split; [by apply Hover|].
    apply after_each_no_send. rewrite responses_app, HF, app_nil_r.
    by apply (overflow_quiet r).
Qed.

End LimitedTraces.

Section LimitedClaims.

Context {World : Type}.
Context (send : World → string → string → list value → gmap string value
                → Response.t * World).
Context (RETRY_AFTER : string).
Context (float_of_str : string → option float).
Context (str_args : list value → string).
Context (str_kwargs : gmap string value → string).
Context (str_timedelta : Z → string).
Context (str_headers : gmap string string → string).
Context (too_large : float → bool).

Local Abbreviation state := (@state World).
Local Abbreviation lim_auth_request :=
  (Limited.auth_request send RETRY_AFTER float_of_str str_args str_kwargs
     str_timedelta str_headers too_large).
Local Abbreviation lim_request :=
  (Limited.request send RETRY_AFTER float_of_str str_args str_kwargs
     str_timedelta str_headers too_large).
Local Abbreviation lim_fixed_secs := (Limited.fixed_secs too_large).
Local Abbreviation lim_retry_after_secs :=
  (Limited.retry_after_secs RETRY_AFTER float_of_str too_large).
Local Abbreviation lim_auth_secs :=
  (Limited.auth_secs RETRY_AFTER float_of_str too_large).
Local Abbreviation lim_react_auth :=
  (Limited.react_auth RETRY_AFTER float_of_str too_large).
Local Abbreviation lim_overflow_auth :=
  (Limited.overflow_auth RETRY_AFTER float_of_str too_large).
Local Abbreviation lim_react_request :=
  (Limited.react_request send RETRY_AFTER float_of_str str_args str_kwargs
     str_timedelta str_headers too_large).
Local Abbreviation lim_overflow_request :=
  (Limited.overflow_request send RETRY_AFTER float_of_str str_args str_kwargs
     str_timedelta str_headers too_large).
Local Abbreviation lim_auth_cycle_overflow :=
  (Limited.auth_cycle_overflow send RETRY_AFTER float_of_str str_args str_kwargs
     str_timedelta str_headers too_large).
Local Abbreviation lim_auth_request_run :=
  (limited_auth_request_run send RETRY_AFTER float_of_str str_args str_kwargs
     str_timedelta str_headers too_large).
Local Abbreviation lim_request_run :=
  (limited_request_run send RETRY_AFTER float_of_str str_args str_kwargs
     str_timedelta str_headers too_large).

Lemma limited_react_auth_quiet (delay : float) r R :
  lim_react_auth delay r R → responses R = [].
Proof. by intros (secs & _ & ->). Qed.

Lemma limited_overflow_auth_quiet (delay : float) r R :
  lim_overflow_auth delay r R → responses R = [].
Proof. by intros (_ & ->). Qed.

Lemma limited_react_request_quiet (s : AutoAuthSession.t) (delay : float) r R :
  lim_react_request s delay r R → responses R = [].
Proof.
  unfold Limited.react_request. case_bool_decide.
  - by intros (sub & _ & _ & ->).
  - apply limited_react_auth_quiet.
Qed.

Lemma limited_overflow_request_quiet (s : AutoAuthSession.t) (delay : float) r R :
  lim_overflow_request s delay r R → responses R = [].
Proof.
  unfold Limited.overflow_request. case_bool_decide.
  - by intros (sub & -> & _).
  - apply limited_overflow_auth_quiet.
Qed.

(** A header that [float] reads as a number that is not negative and fits
    is slept. *)
Lemma limited_retry_after_secs_header (resp : Response.t) (delay : float) v N :
  Response.headers_get resp RETRY_AFTER = Some v →
  float_of_str v = Some N →
  SFleb float_zero N = true →
  too_large N = false →
  lim_retry_after_secs resp delay = Some N.
Proof.
  intros Hh Hf HN Hfit. unfold Limited.retry_after_secs. rewrite Hh, Hf.
  destruct N; try done; by rewrite Hfit, HN.
Qed.

(** A header that [float] reads as a NaN, or as a negative number that
    fits, is refused by [time.sleep] with a [ValueError]. *)
Lemma limited_retry_after_secs_refused (resp : Response.t) (delay : float) v N :
  Response.headers_get resp RETRY_AFTER = Some v →
  float_of_str v = Some N →
  SFleb float_zero N = false →
  N = S754_nan ∨ too_large N = false →
  lim_retry_after_secs resp delay = lim_fixed_secs delay.
Proof.
  intros Hh Hf HN Hfit. unfold Limited.retry_after_secs. rewrite Hh, Hf.
  destruct N; try done; destruct Hfit as [?|Hfit]; try done; by rewrite Hfit, HN.
Qed.

(** After each rejected response whose reaction returns come the events of
    the reaction and then the next attempt or the warning; after one whose
    reaction overflows come the events of that reaction and nothing else. *)
Lemma limited_trace_after_rejected method url args kwargs expected sent
    react overflow lg ran_out tries_msg log rng tries0 resp0 T res :
  (∀ r R, react r R → responses R = []) →
  (∀ r R, overflow r R → responses R = []) →
  limited_trace method url args kwargs expected sent react overflow
    rng tries0 resp0 T res →
  after_each
    (λ r rest,
       expected r = false →
       (∃ R rest', rest = R ++ rest' ∧ react r R
                   ∧ next_attempt_or_warning method url args kwargs rest')
       ∨ overflow r rest)
    (T ++ finish_events_opt lg ran_out tries_msg log res).
Proof.
  intros Hquiet Hquiet' HT.
  apply (limited_trace_after_each method url args kwargs expected sent react overflow
           Hquiet Hquiet'
           (λ r rest,
              expected r = false →
              (∃ R rest', rest = R ++ rest' ∧ react r R
                          ∧ next_attempt_or_warning method url args kwargs rest')
              ∨ overflow r rest)
           (finish_events_opt lg ran_out tries_msg log)
           rng tries0 resp0 T res); [| | | |exact HT].
  - intros res'. apply finish_events_opt_responses.
  - intros i r _ He He'. congruence.
  - intros r R rng' i T' res' _ _ HR HT' _. left.
    exists R, (T' ++ finish_events_opt lg ran_out tries_msg log res').
    split; [done|]. split; [done|].
    destruct (limited_trace_head _ _ _ _ _ _ _ _ _ _ _ _ _ HT')
      as [[-> ->]|(r2 & T'' & ->)].
    + right. unfold finish_events_opt, finish_events. simpl. eauto.
    + left. simpl. eauto.
  - intros r R _ _ HR _. right. simpl. by rewrite app_nil_r.
Qed.

Lemma limited_auth_request_after_rejected method url args expected max_tries
    delay_unexpected log kwargs (st : state) :
  let s := self st in
  let method' := default (AutoAuthSession.method s) method in
  let url' := default (AutoAuthSession.url s) url in
  let kwargs' := dict_merge (AutoAuthSession.kwargs s) kwargs in
  let expected' := default (AutoAuthSession.auth_expected s) expected in
  let delay := resolve_delay (AutoAuthSession.auth_delay_unexpected s) delay_unexpected in
  ∃ w' T out,
    lim_auth_request method url args expected max_tries delay_unexpected log kwargs st
    = (out, extend st w' T)
    ∧ after_each
        (λ r rest,
           expected' r = false →
           (∃ R rest', rest = R ++ rest' ∧ lim_react_auth delay r R
                       ∧ next_attempt_or_warning method' url' args kwargs' rest')
           ∨ lim_overflow_auth delay r rest)
        T.
Proof.
  intros s method' url' kwargs' expected' delay.
  destruct (lim_auth_request_run method url args expected max_tries delay_unexpected
              log kwargs st) as (w' & T & res & Hrun & HT).
  cbv zeta in Hrun, HT.
  eexists w', _, _. split; [exact Hrun|].
  eapply limited_trace_after_rejected;
    [apply limited_react_auth_quiet|apply limited_overflow_auth_quiet|exact HT].
Qed.

Lemma limited_request_after_rejected method url args expected max_tries
    delay_unexpected log kwargs (st : state) :
  let s := self st in
  let expected' := default (AutoAuthSession.expected s) expected in
  let delay := resolve_delay (AutoAuthSession.delay_unexpected s) delay_unexpected in
  ∃ w' T out,
    lim_request method url args expected max_tries delay_unexpected log kwargs st
    = (out, extend st w' T)
    ∧ after_each
        (λ r rest,
           expected' r = false →
           (∃ R rest', rest = R ++ rest' ∧ lim_react_request s delay r R
                       ∧ next_attempt_or_warning method url args kwargs rest')
           ∨ lim_overflow_request s delay r rest)
        T.
Proof.
  intros s expected' delay.
  destruct (lim_request_run method url args expected max_tries delay_unexpected
              log kwargs st) as (w' & T & res & Hrun & HT).
  cbv zeta in Hrun, HT.
  eexists w', _, _. split; [exact Hrun|].
  eapply limited_trace_after_rejected;
    [apply limited_react_request_quiet|apply limited_overflow_request_quiet|exact HT].
Qed.

(** After a rejected 429 response the sleep is that of [retry_after_secs],
    in both loops. *)
Lemma limited_react_auth_429 (delay : float) r R :
  Response.status_code r = Some 429 →
  lim_react_auth delay r R →
  ∃ secs, lim_retry_after_secs r delay = Some secs ∧ R = [ESleep secs].
Proof.
  intros H429. unfold Limited.react_auth, Limited.auth_secs.
  by rewrite bool_decide_eq_true_2.
Qed.

Lemma limited_overflow_auth_429 (delay : float) r R :
  Response.status_code r = Some 429 →
  lim_overflow_auth delay r R → lim_retry_after_secs r delay = None.
Proof.
  intros H429. unfold Limited.overflow_auth, Limited.auth_secs.
  rewrite bool_decide_eq_true_2 by done. by intros [? _].
Qed.

Lemma limited_react_request_429 (s : AutoAuthSession.t) (delay : float) r R :
  Response.status_code r = Some 429 →
  lim_react_request s delay r R →
  ∃ secs, lim_retry_after_secs r delay = Some secs ∧ R = [ESleep secs].
Proof.
  intros H429. unfold Limited.react_request.
  rewrite bool_decide_eq_false_2 by (rewrite H429; done).
  by apply limited_react_auth_429.
Qed.

Lemma limited_overflow_request_429 (s : AutoAuthSession.t) (delay : float) r R :
  Response.status_code r = Some 429 →
  lim_overflow_request s delay r R → lim_retry_after_secs r delay = None.
Proof.
  intros H429. unfold Limited.overflow_request.
  rewrite bool_decide_eq_false_2 by (rewrite H429; done).
  by apply limited_overflow_auth_429.
Qed.


(** X3: in both loops, after a rejected response with status 429 whose
    [RETRY_AFTER] header [float] reads as a NaN, or as a negative number that
    is not too large for [time.sleep], the [ValueError] of [time.sleep] is
    caught like that of [float]: when the resolved fixed delay is not too
    large either, the sleep before the next attempt lasts that delay. *)
Theorem retry_after_negative_falls_back :
  (∀ method url args expected max_tries delay_unexpected log kwargs (st : state),
     let s := self st in
     let method' := default (AutoAuthSession.method s) method in
     let url' := default (AutoAuthSession.url s) url in
     let kwargs' := dict_merge (AutoAuthSession.kwargs s) kwargs in
     let expected' := default (AutoAuthSession.auth_expected s) expected in
     let delay :=
       resolve_delay (AutoAuthSession.auth_delay_unexpected s) delay_unexpected in
     ∃ w' T out,
       lim_auth_request method url args expected max_tries delay_unexpected log kwargs st
       = (out, extend st w' T)
       ∧ after_each
           (λ r rest,
              Response.status_code r = Some 429 → expected' r = false →
              ∀ v N,
                Response.headers_get r RETRY_AFTER = Some v →
                float_of_str v = Some N →
                SFleb float_zero N = false →
                N = S754_nan ∨ too_large N = false →
                too_large delay = false →
                ∃ rest', rest = ESleep delay :: rest'
                         ∧ next_attempt_or_warning method' url' args kwargs' rest')
           T)
  ∧ (∀ method url args expected max_tries delay_unexpected log kwargs (st : state),
     let s := self st in
     let expected' := default (AutoAuthSession.expected s) expected in
     let delay :=
       resolve_delay (AutoAuthSession.delay_unexpected s) delay_unexpected in
     ∃ w' T out,
       lim_request method url args expected max_tries delay_unexpected log kwargs st
       = (out, extend st w' T)
       ∧ after_each
           (λ r rest,
              Response.status_code r = Some 429 → expected' r = false →
              ∀ v N,
                Response.headers_get r RETRY_AFTER = Some v →
                float_of_str v = Some N →
                SFleb float_zero N = false →
                N = S754_nan ∨ too_large N = false →
                too_large delay = false →
                ∃ rest', rest = ESleep delay :: rest'
                         ∧ next_attempt_or_warning method url args kwargs rest')
           T).
Proof.
  split; intros method url args expected max_tries delay_unexpected log kwargs st.
  - intros s method' url' kwargs' expected' delay.
    destruct (limited_auth_request_after_rejected method url args expected max_tries
                delay_unexpected log kwargs st) as (w' & T & out & Hrun & HT).
    exists w', T, out. split; [exact Hrun|].
    eapply after_each_impl; [|exact HT].
    intros r rest H H429 He v N Hh Hf HN Hfit Hdelay.
    pose proof (limited_retry_after_secs_refused r delay v N Hh Hf HN Hfit) as Hsecs.
    unfold Limited.fixed_secs in Hsecs. rewrite Hdelay in Hsecs.
    destruct (H He) as [(R & rest' & -> & HR & Hnext)|Hover].
    + apply limited_react_auth_429 in HR as (secs & Hsecs' & ->); [|done].
      pose proof (eq_trans (eq_sym Hsecs') Hsecs) as Heq. injection Heq as ->.
      by exists rest'.
    + apply limited_overflow_auth_429 in Hover; [|done].
      pose proof (eq_trans (eq_sym Hover) Hsecs) as Heq. done.
  - intros s expected' delay.
    destruct (limited_request_after_rejected method url args expected max_tries
                delay_unexpected log kwargs st) as (w' & T & out & Hrun & HT).
    exists w', T, out. split; [exact Hrun|].
    eapply after_each_impl; [|exact HT].
    intros r rest H H429 He v N Hh Hf HN Hfit Hdelay.
    pose proof (limited_retry_after_secs_refused r delay v N Hh Hf HN Hfit) as Hsecs.
    unfold Limited.fixed_secs in Hsecs. rewrite Hdelay in Hsecs.
    destruct (H He) as [(R & rest' & -> & HR & Hnext)|Hover].
    + apply limited_react_request_429 in HR as (secs & Hsecs' & ->); [|done].
      pose proof (eq_trans (eq_sym Hsecs') Hsecs) as Heq. injection Heq as ->.
      by exists rest'.
    + apply limited_overflow_request_429 in Hover; [|done].
      pose proof (eq_trans (eq_sym Hover) Hsecs) as Heq. done.
Qed.

(** The sleep after a rejected response overflows only for a fixed delay or
    a value of the header that is too large. *)
Lemma limited_auth_secs_None (delay : float) (r : Response.t) :
  lim_auth_secs delay r = None →
  too_large delay = true ∨ ∃ v N, float_of_str v = Some N ∧ too_large N = true.
Proof.
  unfold Limited.auth_secs, Limited.retry_after_secs, Limited.fixed_secs.
  case_bool_decide; [|destruct (too_large delay); by eauto].
  destruct (Response.headers_get r RETRY_AFTER) as [v|];
    [|destruct (too_large delay); by eauto].
  destruct (float_of_str v) as [N|] eqn:Hf; [|destruct (too_large delay); by eauto].
  destruct N; try (destruct (too_large delay); by eauto);
    match goal with
    | |- context [if too_large ?x then _ else _] =>
        destruct (too_large x) eqn:Hx; [right; by eauto|]
    end;
    match goal with
    | |- context [if SFleb float_zero ?x then _ else _] =>
        destruct (SFleb float_zero x); [done|]
    end;
    destruct (too_large delay); by eauto.
Qed.

Lemma limited_auth_cycle_overflow_cause (s : AutoAuthSession.t) (sub : list event) :
  lim_auth_cycle_overflow s sub →
  too_large (resolve_delay (AutoAuthSession.auth_delay_unexpected s) None) = true
  ∨ ∃ v N, float_of_str v = Some N ∧ too_large N = true.
Proof.
  intros (w & w' & Hrun).
  destruct (lim_auth_request_run None None [] None None None None ∅ (mkState s w []))
    as (w2 & T & res & Hrun2 & HT).
  simpl in Hrun2, HT. rewrite Hrun in Hrun2.
  destruct res as [[[tries resp] broke]|]; [done|].
  apply limited_trace_overflowed in HT as (r & R & _ & _ & [Hsecs _]).
  by apply limited_auth_secs_None in Hsecs.
Qed.


End LimitedClaims.

(** ** The methods without a limit *)

(** On a platform that takes every duration, the methods of [Limited] are
    the methods [auth_request] and [request]. *)
Section NoLimit.

Context {World : Type}.
Context (send : World → string → string → list value → gmap string value
                → Response.t * World).
Context (RETRY_AFTER : string).
Context (float_of_str : string → option float).
Context (str_args : list value → string).
Context (str_kwargs : gmap string value → string).
Context (str_timedelta : Z → string).
Context (str_headers : gmap string string → string).

Local Abbreviation state := (@state World).
Local Abbreviation no_limit := (λ _ : float, false).

Lemma bind_pointwise {A B} (m1 m2 : @M World A) (k1 k2 : A → @M World B)
    (st : state) :
  (∀ st, m1 st = m2 st) →
  (∀ a st, k1 a st = k2 a st) →
  bind m1 k1 st = bind m2 k2 st.
Proof.
  intros Hm Hk. unfold bind. rewrite Hm.
  destruct (m2 st) as [[a|e] st']; [apply Hk|done].
Qed.

Lemma nested_pointwise {A} (m1 m2 : @M World A) (st : state) :
  (∀ st, m1 st = m2 st) → nested m1 st = nested m2 st.
Proof. intros Hm. unfold nested. by rewrite Hm. Qed.

Lemma limited_sleep_no_limit (secs : float) (st : state) :
  Limited.sleep no_limit secs st = sleep secs st.
Proof. by destruct secs. Qed.

Lemma limited_sleep_retry_after_no_limit (resp : Response.t) (delay : float)
    (st : state) :
  Limited.sleep_retry_after RETRY_AFTER float_of_str no_limit resp delay st
  = sleep_retry_after RETRY_AFTER float_of_str resp delay st.
Proof.
  unfold Limited.sleep_retry_after, sleep_retry_after, try_except_ValueError.
  cbv zeta.
  destruct (Response.headers_get resp RETRY_AFTER) as [v|].
  - rewrite (bind_pointwise (float_ float_of_str v) (float_ float_of_str v)
               (λ f, Limited.sleep no_limit f) (λ f, sleep f) st);
      [|done|apply limited_sleep_no_limit].
    destruct (bind _ _ st) as [[[]|[]] st']; try done.
    apply limited_sleep_no_limit.
  - rewrite limited_sleep_no_limit.
    destruct (sleep delay st) as [[[]|[]] st']; try done.
    apply limited_sleep_no_limit.
Qed.

Lemma limited_auth_request_loop_no_limit method url args kwargs expected delay
    rng tries resp (st : state) :
  Limited.auth_request_loop send RETRY_AFTER float_of_str no_limit
    method url args kwargs expected delay rng tries resp st
  = auth_request_loop send RETRY_AFTER float_of_str
      method url args kwargs expected delay rng tries resp st.
Proof.
  revert tries resp st. induction rng as [|i rng IH]; intros tries resp st; [done|].
  simpl. apply bind_pointwise; [done|]. intros r st1.
  destruct (expected r); [done|].
  apply bind_pointwise; [|intros _ st2; apply IH]. intros st2.
  case_bool_decide.
  - apply limited_sleep_retry_after_no_limit.
  - apply limited_sleep_no_limit.
Qed.

Lemma limited_auth_request_no_limit method url args expected max_tries
    delay_unexpected log kwargs (st : state) :
  Limited.auth_request send RETRY_AFTER float_of_str str_args str_kwargs
    str_timedelta str_headers no_limit
    method url args expected max_tries delay_unexpected log kwargs st
  = auth_request send RETRY_AFTER float_of_str str_args str_kwargs
      str_timedelta str_headers
      method url args expected max_tries delay_unexpected log kwargs st.
Proof.
  unfold Limited.auth_request. unfold_auth_request.
  apply bind_pointwise; [done|]. intros s st1. cbv zeta.
  apply bind_pointwise; [|done]. intros st2.
  apply limited_auth_request_loop_no_limit.
Qed.

Lemma limited_request_loop_no_limit method url args kwargs expected delay
    rng tries resp (st : state) :
  Limited.request_loop send RETRY_AFTER float_of_str str_args str_kwargs
    str_timedelta str_headers no_limit
    method url args kwargs expected delay rng tries resp st
  = request_loop send RETRY_AFTER float_of_str str_args str_kwargs
      str_timedelta str_headers
      method url args kwargs expected delay rng tries resp st.
Proof.
  revert tries resp st. induction rng as [|i rng IH]; intros tries resp st; [done|].
  simpl. apply bind_pointwise; [done|]. intros r st1.
  destruct (expected r); [done|].
  apply bind_pointwise; [|intros _ st2; apply IH]. intros st2.
  case_bool_decide.
  - apply bind_pointwise.
    + intros st3. apply nested_pointwise. intros st4.
      apply limited_auth_request_no_limit.
    + intros _ st3. apply limited_sleep_no_limit.
  - case_bool_decide.
    + apply limited_sleep_retry_after_no_limit.
    + apply limited_sleep_no_limit.
Qed.

Lemma limited_request_no_limit method url args expected max_tries
    delay_unexpected log kwargs (st : state) :
  Limited.request send RETRY_AFTER float_of_str str_args str_kwargs
    str_timedelta str_headers no_limit
    method url args expected max_tries delay_unexpected log kwargs st
  = request send RETRY_AFTER float_of_str str_args str_kwargs
      str_timedelta str_headers
      method url args expected max_tries delay_unexpected log kwargs st.
Proof.
  unfold Limited.request. unfold_request.
  apply bind_pointwise; [done|]. intros s st1. cbv zeta.
  apply bind_pointwise; [|done]. intros st2.
  apply limited_request_loop_no_limit.
Qed.

End NoLimit.

(** ** Examples and instances *)

(** [5.0] *)
Example float_of_str_5 :
  Scripted.float_of_str "5" = Some (S754_finite false 5629499534213120 (-50)).
Proof. reflexivity. Qed.

Example float_of_str_soon : Scripted.float_of_str "soon" = None.
Proof. reflexivity. Qed.

(** [max_tries=5], the responses 500, 500, 200: three attempts, two sleeps of
    the fixed delay, no warning, and 3 tries in the info record. *)
Example accepted_on_third_attempt :
  let '(out, st) :=
    Scripted.request "GET" "https://api.example/x" [] None (Some 5) None (Some "x") ∅
      (Scripted.start [Scripted.response 500 []; Scripted.response 500 [];
                       Scripted.response 200 []]) in
  out = Ret (Scripted.response 200 [])
  ∧ transport_calls (trace st) = 3%nat
  ∧ sleeps (trace st) = [AutoAuthSession.default_delay_unexpected;
                          AutoAuthSession.default_delay_unexpected]
  ∧ warnings (trace st) = []
  ∧ infos (trace st) = ["<AutoAuthSession []>.request(...) [3 tries]: x"].
Proof. vm_compute. done. Qed.

(** A 429 response with [Retry-After: 5]: the sleep lasts 5.0, in both
    loops; the name of the header is matched without regard to case. *)
Example retry_after_5 :
  let script := [Scripted.response 429 [("retry-after", "5")]; Scripted.response 200 []] in
  sleeps (trace (Scripted.request "GET" "https://api.example/x" [] None None None None ∅
                   (Scripted.start script)).2)
  = [S754_finite false 5629499534213120 (-50)]
  ∧ sleeps (trace (Scripted.auth_request None None [] (Some Scripted.ok) None None None ∅
                     (Scripted.start script)).2)
    = [S754_finite false 5629499534213120 (-50)].
Proof. vm_compute. done. Qed.

(** A 429 response with [Retry-After: soon], and one without the header:
    the sleep lasts the fixed delay, 2.0. *)
Example retry_after_soon :
  let script := [Scripted.response 429 [("Retry-After", "soon")];
                 Scripted.response 429 []; Scripted.response 200 []] in
  let '(out, st) :=
    Scripted.request "GET" "https://api.example/x" [] None None None None ∅
      (Scripted.start script) in
  out = Ret (Scripted.response 200 [])
  ∧ sleeps (trace st) = [AutoAuthSession.default_delay_unexpected;
                          AutoAuthSession.default_delay_unexpected].
Proof. vm_compute. done. Qed.

(** A 401 response on the first attempt: one nested call of [auth_request],
    with the method, url and keyword arguments of the session, then the fixed
    delay, then the second attempt. *)
Example unauthorized_then_accepted :
  let script := [Scripted.response 401 []; Scripted.response 200 [];
                 Scripted.response 200 []] in
  trace (Scripted.request "GET" "https://api.example/x" [] None None None None ∅
           (Scripted.start script)).2
  = [ ESend "GET" "https://api.example/x" [] ∅ (Scripted.response 401 []);
      EAuthRequest [ESend "POST" "https://api.example/auth" [] ∅
                      (Scripted.response 200 [])];
      ESleep AutoAuthSession.default_delay_unexpected;
      ESend "GET" "https://api.example/x" [] ∅ (Scripted.response 200 []) ].
Proof. vm_compute. done. Qed.

(** [auth_request] on a session built with [timeout=5], called with
    [timeout=9, verify=False] and [max_tries=2], the transport answering 500
    twice: both attempts send the merged keyword arguments, in which the
    [timeout] of the call has replaced that of the session, and one warning
    is logged. *)
Example auth_request_exhausted :
  let s := AutoAuthSession.init "POST" "https://api.example/auth"
             Scripted.ok 3 AutoAuthSession.default_delay_unexpected
             Scripted.ok 3 AutoAuthSession.default_delay_unexpected
             logging_root {[ "timeout" := VInt 5 ]} in
  let r := Scripted.response 500 [] in
  let '(out, st) :=
    Scripted.auth_request None None [] None (Some 2) None None
      {[ "timeout" := VInt 9; "verify" := VBool false ]}
      (mkState s [r; r] []) in
  out = Ret r
  ∧ self st = s
  ∧ sent_kwargs (trace st)
    = [ {[ "timeout" := VInt 9; "verify" := VBool false ]};
        {[ "timeout" := VInt 9; "verify" := VBool false ]} ]
  ∧ sleeps (trace st) = [AutoAuthSession.default_delay_unexpected;
                          AutoAuthSession.default_delay_unexpected]
  ∧ warnings (trace st)
    = [ join_lines
          [ "<AutoAuthSession []>.auth_request(...) [max 2 tries ran out]";
            "super().request(method, url, *args, **kwargs):";
            "    method: POST";
            "    url: https://api.example/auth";
            "    args: (...)";
            "    kwargs: {...}";
            "<Response [500]>:";
            "    status_code: 500";
            "    reason: ";
            "    url: https://api.example/";
            "    elapsed: 0us";
            "    headers: {...}";
            "    text: " ] ].
Proof. vm_compute. done. Qed.





(** X13, an instance: two sessions that differ in the ordinary defaults
    only, and a call of [auth_request] that runs out of tries. *)
Lemma auth_request_ignores_ordinary_defaults_witness :
  (Scripted.auth_run Scripted.session_a).1 = (Scripted.auth_run Scripted.session_b).1
  ∧ world (Scripted.auth_run Scripted.session_a).2
    = world (Scripted.auth_run Scripted.session_b).2
  ∧ trace (Scripted.auth_run Scripted.session_a).2
    = trace (Scripted.auth_run Scripted.session_b).2.
Proof.
  exact (auth_request_ignores_ordinary_defaults Scripted.send Scripted.RETRY_AFTER
           Scripted.float_of_str Scripted.str_args Scripted.str_kwargs
           Scripted.str_timedelta Scripted.str_headers
           Scripted.session_a Scripted.session_b
           None None [] None None None (Some "x") ∅
           [Scripted.response 500 []; Scripted.response 429 [("Retry-After", "5")]] []
           eq_refl eq_refl eq_refl eq_refl eq_refl eq_refl eq_refl).
Defined.

(** X14, an instance: the session is built with the default predicate and
    the transport answers 401. *)
Lemma accepting_predicate_never_retries_witness :
  (∀ r, default (AutoAuthSession.expected Scripted.session_default) None r = true)
  ∧ ∃ w' resp,
      Scripted.request "GET" "https://api.example/x" [] None None None None ∅
        (mkState Scripted.session_default [Scripted.response 401 []] [])
      = (Ret resp,
         extend (mkState Scripted.session_default [Scripted.response 401 []] []) w'
           [ESend "GET" "https://api.example/x" [] ∅ resp]).
Proof.
  assert (∀ r, default (AutoAuthSession.expected Scripted.session_default) None r = true)
    as H by reflexivity.
  split; [exact H|].
  exact (accepting_predicate_never_retries Scripted.send Scripted.RETRY_AFTER
           Scripted.float_of_str Scripted.str_args Scripted.str_kwargs
           Scripted.str_timedelta Scripted.str_headers
           "GET" "https://api.example/x" [] None None None None ∅
           (mkState Scripted.session_default [Scripted.response 401 []] []) H).
Defined.

(** [Retry-After: 5] with the limit of CPython: the sleep lasts 5.0, in both
    loops. *)
Example retry_after_5_within_limit :
  let script := [Scripted.response 429 [("Retry-After", "5")]; Scripted.response 200 []] in
  Cpython.too_large (S754_finite false 5629499534213120 (-50)) = false
  ∧ sleeps (trace (Cpython.request "GET" "https://api.example/x" [] None None None None ∅
                     (Scripted.start script)).2)
    = [S754_finite false 5629499534213120 (-50)]
  ∧ sleeps (trace (Cpython.auth_request None None [] (Some Scripted.ok) None None None ∅
                     (Scripted.start script)).2)
    = [S754_finite false 5629499534213120 (-50)].
Proof. vm_compute. done. Qed.


(** [Retry-After: -5] cannot be written with the digits that
    [Scripted.float_of_str] reads; with a [float] that reads every header as
    -5.0, the sleep lasts the fixed delay, 2.0. *)
Example retry_after_negative :
  let script := [Scripted.response 429 [("Retry-After", "-5")]; Scripted.response 200 []] in
  let minus_5 := SFopp (binary_normalize 53 1024 5 0 false) in
  Cpython.too_large minus_5 = false
  ∧ sleeps (trace (Limited.request Scripted.send Scripted.RETRY_AFTER
                     (λ _, Some minus_5) Scripted.str_args Scripted.str_kwargs
                     Scripted.str_timedelta Scripted.str_headers Cpython.too_large
                     "GET" "https://api.example/x" [] None None None None ∅
                     (Scripted.start script)).2)
    = [AutoAuthSession.default_delay_unexpected].
Proof. vm_compute. done. Qed.
